(** * nwc-phoenixd: settlement ledger and incoming-payment queue

    A shallow embedding of [src/modules/db.ts] (class [DB], the ledger
    store on top of SQLite) and of the incoming-payment queue of the
    node adapter (class [Phoenixd]), with the properties of the
    specification stated over them.

    Modelling conventions.
    - SQLite [INTEGER] columns and JavaScript numbers that hold amounts,
      flags and timestamps are [Z]; [TEXT] columns are [string]; a column
      without default and without value ([amount] after [createInvoice])
      is SQL NULL, an [option].
    - [records] has an [INTEGER PRIMARY KEY], so the table is a finite map
      from rowid to row; the source passes ids around as the decimal
      rendering of the rowid and we identify both.  [wallets] has a unique
      index on [pubkey] and its surrogate id is never read: the table is a
      finite map from pubkey to wallet state.  [fees] only ever holds the
      row with id 1: an [option].
    - [BEGIN]/[ROLLBACK]/[COMMIT] are modelled with an explicit snapshot
      of the tables; the clock [now()] is an argument of the operations
      that read it; logging is not modelled. *)

From stdpp Require Import gmap strings list fin_maps sorting.
From Stdlib Require Import ZArith Lia.

Local Open Scope string_scope.
Local Open Scope Z_scope.

(** ** Data model *)

Module Ledger.

(** A row of [records]. *)
Record Rec := mkRec {
  pubkey : string;
  is_outgoing : Z;
  is_paid : Z;
  payment_hash : string;
  description : string;
  description_hash : string;
  preimage : string;
  amount : option Z;
  fees_paid : Z;
  created_at : Z;
  expires_at : Z;
  settled_at : Z
}.

(** [WalletState] of [types.ts], as used by [updateWalletState] and
    [listWallets]. *)
Record WalletState := mkWalletState {
  balance : Z;
  channelSize : Z;
  feeCredit : Z
}.

(** The row of [fees] with id 1. *)
Record FeesRow := mkFeesRow {
  mining_fee_paid : Z;
  mining_fee_received : Z
}.

Record Tables := mkTables {
  records : gmap Z Rec;
  records_seq : Z;          (* sqlite_sequence entry of [records] *)
  wallets : gmap string WalletState;
  fees : option FeesRow
}.

(** The connection: the current tables and, inside a transaction, the
    tables as they were at [BEGIN]. *)
Record DB := mkDB {
  tables : Tables;
  saved : option Tables
}.

(** [Transaction] and [Invoice] of [types.ts], with the fields the store
    reads and writes. *)
Inductive TxType := incoming | outgoing.

Record Transaction := mkTransaction {
  tx_type : TxType;
  tx_description : option string;
  tx_description_hash : option string;
  tx_preimage : option string;
  tx_payment_hash : string;
  tx_amount : Z;
  tx_fees_paid : Z;
  tx_created_at : Z;
  tx_expires_at : Z;
  tx_settled_at : Z
}.

Record Invoice := mkInvoice {
  inv_tx : Transaction;      (* the spread [...tx] *)
  inv_invoice : string
}.

Record ListTransactionsReq := mkListReq {
  req_clientPubkey : string;
  req_from : option Z;
  req_until : option Z;
  req_limit : option Z;
  req_offset : option Z;
  req_unpaid : option bool;
  req_type : option TxType
}.

(** ** Field updates *)

Definition set_records (f : gmap Z Rec → gmap Z Rec) (t : Tables) : Tables :=
  mkTables (f (records t)) (records_seq t) (wallets t) (fees t).

Definition set_wallets (f : gmap string WalletState → gmap string WalletState)
    (t : Tables) : Tables :=
  mkTables (records t) (records_seq t) (f (wallets t)) (fees t).

Definition set_fees (f : option FeesRow → option FeesRow) (t : Tables) : Tables :=
  mkTables (records t) (records_seq t) (wallets t) (f (fees t)).

(** ** The error/state monad of a store call *)

Inductive Res (A : Type) :=
| Ok (a : A) (db : DB)
| Throw (e : string) (db : DB).
Arguments Ok {A} a db.
Arguments Throw {A} e db.

Definition M (A : Type) := DB → Res A.

Definition ret {A} (a : A) : M A := fun db => Ok a db.
Definition throw {A} (e : string) : M A := fun db => Throw e db.
Definition bind {A B} (m : M A) (k : A → M B) : M B :=
  fun db => match m db with
            | Ok a db' => k a db'
            | Throw e db' => Throw e db'
            end.
Definition try_catch {A} (m : M A) (h : string → M A) : M A :=
  fun db => match m db with
            | Ok a db' => Ok a db'
            | Throw e db' => h e db'
            end.

Notation "x <- m ;; k" := (bind m (fun x => k))
  (at level 100, m at next level, right associativity).
Notation "m ;;; k" := (bind m (fun _ => k))
  (at level 100, right associativity).

Definition state_of {A} (r : Res A) : DB :=
  match r with Ok _ db => db | Throw _ db => db end.

(** ** Statements *)

(** The outcome of running one prepared statement: the number of changed
    rows and the new tables, or an engine error. *)
Inductive StmtRes :=
| Done (changes : Z) (t : Tables)
| Failed (e : string) (t : Tables).

Definition Stmt := Tables → StmtRes.

Definition run (s : Stmt) : M Z :=
  fun db => match s (tables db) with
            | Done c t => Ok c (mkDB t (saved db))
            | Failed e t => Throw e (mkDB t (saved db))
            end.

Definition query {A} (f : Tables → A) : M A :=
  fun db => Ok (f (tables db)) db.

Definition exec_begin : M unit :=
  fun db => match saved db with
            | Some _ => Throw "cannot start a transaction within a transaction" db
            | None => Ok tt (mkDB (tables db) (Some (tables db)))
            end.

Definition exec_rollback : M unit :=
  fun db => match saved db with
            | Some t => Ok tt (mkDB t None)
            | None => Throw "cannot rollback - no transaction is active" db
            end.

Definition exec_commit : M unit :=
  fun db => match saved db with
            | Some _ => Ok tt (mkDB (tables db) None)
            | None => Throw "cannot commit - no transaction is active" db
            end.

(** ** Fee counters *)

(** [INSERT INTO fees (id, mining_fee_paid, mining_fee_received)
     VALUES (1, ?, 0) ON CONFLICT(id) DO UPDATE
     SET mining_fee_paid = mining_fee_paid + ?] *)
Definition upsert_fee_paid (fee : Z) : Stmt := fun t =>
  Done 1 (set_fees (fun o => match o with
                             | None => Some (mkFeesRow fee 0)
                             | Some r => Some (mkFeesRow (mining_fee_paid r + fee)
                                                         (mining_fee_received r))
                             end) t).

(** [INSERT INTO fees ... VALUES (1, 0, ?) ON CONFLICT(id) DO UPDATE
     SET mining_fee_received = mining_fee_received + ?] *)
Definition upsert_fee_received (fee : Z) : Stmt := fun t =>
  Done 1 (set_fees (fun o => match o with
                             | None => Some (mkFeesRow 0 fee)
                             | Some r => Some (mkFeesRow (mining_fee_paid r)
                                                         (mining_fee_received r + fee))
                             end) t).

Definition addMiningFeePaid (fee : Z) : M unit :=
  f <- run (upsert_fee_paid fee) ;;
  if f =? 0 then throw "Failed to update mining_fee_paid" else ret tt.

Record Fees := mkFees { miningFeePaid : Z; miningFeeReceived : Z }.

(** [rec?.col || 0] *)
Definition or0 (o : option Z) : Z := match o with Some z => z | None => 0 end.

Definition fees_of (t : Tables) : Fees :=
  mkFees (or0 (mining_fee_paid <$> fees t)) (or0 (mining_fee_received <$> fees t)).

(** The largest integer node:sqlite hands out as a JavaScript number. *)
Definition MAX_SAFE_INTEGER : Z := 2 ^ 53 - 1.

Definition js_safe (z : Z) : bool :=
  (- MAX_SAFE_INTEGER <=? z) && (z <=? MAX_SAFE_INTEGER).

(** [SELECT * FROM fees WHERE id = 1]: reading a row fails when one of
    its integers is not a safe JavaScript integer. *)
Definition select_fees (t : Tables) : option FeesRow + string :=
  match fees t with
  | None => inl None
  | Some r =>
      if js_safe (mining_fee_paid r) && js_safe (mining_fee_received r)
      then inl (Some r)
      else inr "ERR_OUT_OF_RANGE"
  end.

Definition getFees : M Fees :=
  fun db => match select_fees (tables db) with
            | inl rec => Ok (mkFees (or0 (mining_fee_paid <$> rec))
                                    (or0 (mining_fee_received <$> rec))) db
            | inr e => Throw e db
            end.

Definition listWallets : M (list (string * WalletState)) :=
  query (fun t => map_to_list (wallets t)).

(** ** Incoming records (invoices) *)

(** Largest rowid in use; with [records_seq] this gives the next
    [AUTOINCREMENT] rowid. *)
Definition max_rowid (m : gmap Z Rec) : Z :=
  map_fold (fun k _ acc => Z.max k acc) 0 m.

Definition next_rowid (t : Tables) : Z :=
  Z.max (records_seq t) (max_rowid (records t)) + 1.

(** An [INSERT INTO records]: returns [lastInsertRowid]. *)
Definition run_insert (r : Rec) : M Z :=
  fun db => let t := tables db in
            let id := next_rowid t in
            Ok id (mkDB (mkTables (<[id := r]> (records t)) id (wallets t) (fees t))
                        (saved db)).

(** [INSERT INTO records (pubkey, created_at) VALUES (?, ?)]: every other
    column takes its default. *)
Definition createInvoice (now : Z) (clientPubkey : string) : M Z :=
  run_insert (mkRec clientPubkey 0 0 "" "" "" "" None 0 now 0 0).

(** [DELETE FROM records WHERE id = ? AND is_outgoing = 0] *)
Definition delete_invoice_stmt (id : Z) : Stmt := fun t =>
  match records t !! id with
  | Some r => if is_outgoing r =? 0
              then Done 1 (set_records (delete id) t)
              else Done 0 t
  | None => Done 0 t
  end.

Definition deleteInvoice (id : Z) : M unit :=
  run (delete_invoice_stmt id) ;;; ret tt.

(** [s || ""] *)
Definition or_empty (o : option string) : string :=
  match o with Some s => s | None => "" end.

(** [UPDATE records SET payment_hash = ?, description = ?,
     description_hash = ?, amount = ?, created_at = ?, expires_at = ?
     WHERE id = ?] *)
Definition complete_row (invoice : Invoice) (r : Rec) : Rec :=
  let i := inv_tx invoice in
  mkRec (pubkey r) (is_outgoing r) (is_paid r)
        (tx_payment_hash i)
        (or_empty (tx_description i))
        (or_empty (tx_description_hash i))
        (preimage r)
        (Some (tx_amount i))
        (fees_paid r)
        (tx_created_at i)
        (tx_expires_at i)
        (settled_at r).

Definition complete_invoice_stmt (id : Z) (invoice : Invoice) : Stmt := fun t =>
  match records t !! id with
  | Some r => Done 1 (set_records <[id := complete_row invoice r]> t)
  | None => Done 0 t
  end.

Definition completeInvoice (id : Z) (invoice : Invoice) : M unit :=
  r <- run (complete_invoice_stmt id invoice) ;;
  if negb (r =? 1) then throw "Invoice not found by id" else ret tt.

(** [(s as string) || undefined] *)
Definition nonempty (s : string) : option string :=
  if String.eqb s "" then None else Some s.

Definition recToTx (r : Rec) : Transaction :=
  mkTransaction (if is_outgoing r =? 0 then incoming else outgoing)
                (nonempty (description r))
                (nonempty (description_hash r))
                (nonempty (preimage r))
                (payment_hash r)
                (or0 (amount r))
                (fees_paid r)
                (created_at r)
                (expires_at r)
                (settled_at r).

(** [SELECT * FROM records WHERE id = ? AND is_outgoing = 0] *)
Definition select_invoice (id : Z) (t : Tables) : option Rec :=
  match records t !! id with
  | Some r => if is_outgoing r =? 0 then Some r else None
  | None => None
  end.

Definition getInvoiceById (id : Z) : M (option (Invoice * string)) :=
  r <- query (select_invoice id) ;;
  match r with
  | None => ret None
  | Some r =>
      let tx := recToTx r in
      match tx_type tx with
      | outgoing => throw "Invalid type"
      | incoming => ret (Some (mkInvoice tx "", pubkey r))
      end
  end.

(** ** Wallets *)

(** [INSERT INTO wallets (pubkey, balance, channel_size, fee_credit)
     VALUES (?, ?, ?, ?) ON CONFLICT(pubkey) DO UPDATE SET balance = ?,
     channel_size = ?, fee_credit = ?] *)
Definition upsert_wallet (clientPubkey : string) (walletState : WalletState) : Stmt :=
  fun t => Done 1 (set_wallets <[clientPubkey := walletState]> t).

(** [updateWalletState], with the statement run by [wallet.run] as a
    parameter, so that an engine that fails on it can be described. *)
Definition updateWalletState_with (wallet : string → WalletState → Stmt)
    (clientPubkey : string) (walletState : WalletState) : M unit :=
  wr <- run (wallet clientPubkey walletState) ;;
  if negb (wr =? 1) then throw "Wallet not found by clientPubkey" else ret tt.

Definition updateWalletState : string → WalletState → M unit :=
  updateWalletState_with upsert_wallet.

(** ** Settlement of an invoice *)

(** [UPDATE records SET is_paid = 1, settled_at = ?
     WHERE id = ? AND is_paid = 0] *)
Definition settle_row (settledAt : Z) (r : Rec) : Rec :=
  mkRec (pubkey r) (is_outgoing r) 1 (payment_hash r) (description r)
        (description_hash r) (preimage r) (amount r) (fees_paid r)
        (created_at r) (expires_at r) settledAt.

Definition settle_invoice_stmt (settledAt id : Z) : Stmt := fun t =>
  match records t !! id with
  | Some r => if is_paid r =? 0
              then Done 1 (set_records <[id := settle_row settledAt r]> t)
              else Done 0 t
  | None => Done 0 t
  end.

(** [expectedPubkey !== clientPubkey], where [expectedPubkey] is
    [undefined] when the invoice was not found. *)
Definition pubkey_differs (expected : option string) (clientPubkey : string) : bool :=
  match expected with
  | Some k => negb (String.eqb k clientPubkey)
  | None => true
  end.

(** The body of the [try] block yields [Some b] at a [return b] and
    [None] when it falls through to the commit. *)
Definition settleInvoice (clientPubkey : string) (id settledAt : Z)
    (walletState : WalletState) (miningFee : Z) : M bool :=
  exec_begin ;;;
  early <- try_catch
    (found <- getInvoiceById id ;;
     if pubkey_differs (snd <$> found) clientPubkey
     then throw "Invalid clientPubkey for settleInvoice"
     else
       r <- run (settle_invoice_stmt settledAt id) ;;
       if r =? 0
       then exec_rollback ;;; ret (Some false)
       else
         f <- run (upsert_fee_received miningFee) ;;
         if f =? 0
         then throw "Failed to update mining_fee_received"
         else updateWalletState clientPubkey walletState ;;; ret None)
    (fun e => exec_rollback ;;; throw e) ;;
  match early with
  | Some b => ret b
  | None => exec_commit ;;; ret true
  end.

(** ** Outgoing records (payments) *)

(** [INSERT INTO records (is_outgoing, pubkey, payment_hash, description,
     description_hash, amount, created_at) VALUES (1, ?, ?, ?, ?, ?, ?)] *)
Definition createPayment (now : Z) (clientPubkey : string) (invoice : Invoice) : M unit :=
  let i := inv_tx invoice in
  run_insert (mkRec clientPubkey 1 0 (tx_payment_hash i)
                    (or_empty (tx_description i))
                    (or_empty (tx_description_hash i))
                    "" (Some (tx_amount i)) 0 now 0 0) ;;;
  ret tt.

Definition is_payment (clientPubkey paymentHash : string) (r : Rec) : bool :=
  String.eqb (pubkey r) clientPubkey && String.eqb (payment_hash r) paymentHash.

(** [DELETE FROM records WHERE pubkey = ? AND payment_hash = ?] *)
Definition delete_payment_stmt (clientPubkey paymentHash : string) : Stmt := fun t =>
  Done (Z.of_nat (size (filter (fun kr => is_payment clientPubkey paymentHash kr.2 = true)
                               (records t))))
       (set_records (filter (fun kr => is_payment clientPubkey paymentHash kr.2 = false)) t).

Definition deletePayment (clientPubkey paymentHash : string) : M unit :=
  run (delete_payment_stmt clientPubkey paymentHash) ;;; ret tt.

(** [UPDATE records SET is_paid = 1, fees_paid = ?, settled_at = ?
     WHERE pubkey = ? AND payment_hash = ? AND is_paid = 0] *)
Definition is_unpaid_payment (clientPubkey paymentHash : string) (r : Rec) : bool :=
  is_payment clientPubkey paymentHash r && (is_paid r =? 0).

Definition pay_row (feesPaid now : Z) (r : Rec) : Rec :=
  mkRec (pubkey r) (is_outgoing r) 1 (payment_hash r) (description r)
        (description_hash r) (preimage r) (amount r) feesPaid
        (created_at r) (expires_at r) now.

Definition settle_payment_stmt (feesPaid now : Z) (clientPubkey paymentHash : string)
    : Stmt := fun t =>
  Done (Z.of_nat (size (filter (fun kr => is_unpaid_payment clientPubkey paymentHash kr.2 = true)
                               (records t))))
       (set_records (fmap (fun r => if is_unpaid_payment clientPubkey paymentHash r
                                    then pay_row feesPaid now r else r)) t).

Definition settlePayment_with (wallet : string → WalletState → Stmt) (now : Z)
    (clientPubkey paymentHash : string) (feesPaid : Z) (walletState : WalletState)
    : M unit :=
  exec_begin ;;;
  try_catch
    (r <- run (settle_payment_stmt feesPaid now clientPubkey paymentHash) ;;
     if negb (r =? 1)
     then throw "Payment not found by paymentHash"
     else updateWalletState_with wallet clientPubkey walletState)
    (fun e => exec_rollback ;;; throw e) ;;;
  exec_commit.

Definition settlePayment : Z → string → string → Z → WalletState → M unit :=
  settlePayment_with upsert_wallet.

(** ** Listing *)

(** A bound statement parameter. *)
Inductive SqlVal :=
| SqlNull
| SqlInt (z : Z)
| SqlText (s : string).

(** The [n]-th [?] of a statement run with [args]: a parameter that was
    given no argument is NULL. *)
Definition param (args : list SqlVal) (n : nat) : SqlVal :=
  nth n args SqlNull.

(** The conditions [col op ?] that [listTransactions] puts in its
    [WHERE] clause. *)
Inductive Cond :=
| PubkeyEq        (* pubkey = ? *)
| CreatedAtGe     (* created_at >= ? *)
| CreatedAtLe     (* created_at <= ? *)
| IsPaidEq        (* is_paid = ? *)
| IsOutgoingEq.   (* is_outgoing = ? *)

(** The source binds a string to [pubkey = ?] and numbers to the other
    conditions; a comparison with NULL is not true. *)
Definition cond_holds (c : Cond) (v : SqlVal) (r : Rec) : bool :=
  match c, v with
  | PubkeyEq, SqlText s => String.eqb (pubkey r) s
  | CreatedAtGe, SqlInt z => z <=? created_at r
  | CreatedAtLe, SqlInt z => created_at r <=? z
  | IsPaidEq, SqlInt z => is_paid r =? z
  | IsOutgoingEq, SqlInt z => is_outgoing r =? z
  | _, _ => false
  end.

(** The conjunction of [conds], whose parameters are numbered from [n]. *)
Fixpoint where_holds (conds : list Cond) (n : nat) (args : list SqlVal) (r : Rec)
    : bool :=
  match conds with
  | [] => true
  | c :: cs => cond_holds c (param args n) r && where_holds cs (S n) args r
  end.

(** [ORDER BY created_at DESC]; the order of rows with equal [created_at]
    is the engine's choice, here that of a stable sort. *)
Definition newer_first : relation Rec :=
  fun r1 r2 => created_at r2 <= created_at r1.

#[global] Instance newer_first_dec : RelDecision newer_first :=
  fun r1 r2 => decide (created_at r2 <= created_at r1).

(** [LIMIT l]: a negative limit is no limit. *)
Definition sql_limit {A} (l : Z) (rows : list A) : list A :=
  if l <? 0 then rows else take (Z.to_nat l) rows.

(** [SELECT * FROM records WHERE conds ORDER BY created_at DESC
     LIMIT ? OFFSET ?].  SQLite refuses a LIMIT or OFFSET that is not an
     integer with [datatype mismatch]. *)
Definition select_transactions (conds : list Cond) (args : list SqlVal) (t : Tables)
    : list Rec + string :=
  let n := length conds in
  let rows := filter (fun r => where_holds conds 0 args r = true)
                     (map_to_list (records t)).*2 in
  let sorted := merge_sort newer_first rows in
  match param args n, param args (S n) with
  | SqlInt l, SqlInt o => inl (sql_limit l (drop (Z.to_nat o) sorted))
  | _, _ => inr "datatype mismatch"
  end.

Definition run_select {A} (q : Tables → A + string) : M A :=
  fun db => match q (tables db) with
            | inl a => Ok a db
            | inr e => Throw e db
            end.

(** [x || d] on an optional number. *)
Definition or_else (o : option Z) (d : Z) : Z :=
  match o with
  | Some z => if z =? 0 then d else z
  | None => d
  end.

(** [req.unpaid !== true] *)
Definition not_unpaid (req : ListTransactionsReq) : bool :=
  match req_unpaid req with Some true => false | _ => true end.

Definition list_conds (req : ListTransactionsReq) : list Cond :=
  [PubkeyEq; CreatedAtGe; CreatedAtLe]
  ++ (if not_unpaid req then [IsPaidEq] else [])
  ++ (match req_type req with Some _ => [IsOutgoingEq] | None => [] end).

Definition list_args (now : Z) (req : ListTransactionsReq) : list SqlVal :=
  [SqlText (req_clientPubkey req);
   SqlInt (or_else (req_from req) 0);
   SqlInt (or_else (req_until req) now)]
  ++ (if not_unpaid req then [SqlInt 1] else [])
  ++ (match req_type req with
      | Some outgoing => [SqlInt 1]
      | Some incoming => [SqlInt 0]
      | None => []
      end).

Definition listTransactions (now : Z) (req : ListTransactionsReq)
    : M (list Transaction) :=
  recs <- run_select (select_transactions (list_conds req) (list_args now req)) ;;
  ret (recToTx <$> recs).

(** ** Watermark *)

Definition later_first : relation Z := fun a b => b <= a.

#[global] Instance later_first_dec : RelDecision later_first :=
  fun a b => decide (b <= a).

(** [SELECT settled_at FROM records ORDER BY settled_at DESC LIMIT 1] *)
Definition select_last_settled (t : Tables) : option Z :=
  head (merge_sort later_first (settled_at <$> (map_to_list (records t)).*2)).

Definition getLastInvoiceSettledAt : M Z :=
  r <- query select_last_settled ;;
  ret (or0 r).

(** ** Store operations as data *)

(** The mutating calls of the store. *)
Inductive Op :=
| OpAddMiningFeePaid (fee : Z)
| OpCreateInvoice (now : Z) (clientPubkey : string)
| OpDeleteInvoice (id : Z)
| OpCompleteInvoice (id : Z) (invoice : Invoice)
| OpSettleInvoice (clientPubkey : string) (id settledAt : Z)
                  (walletState : WalletState) (miningFee : Z)
| OpCreatePayment (now : Z) (clientPubkey : string) (invoice : Invoice)
| OpDeletePayment (clientPubkey paymentHash : string)
| OpSettlePayment (now : Z) (clientPubkey paymentHash : string) (feesPaid : Z)
                  (walletState : WalletState).

Definition run_op (o : Op) (db : DB) : DB :=
  match o with
  | OpAddMiningFeePaid fee => state_of (addMiningFeePaid fee db)
  | OpCreateInvoice now k => state_of (createInvoice now k db)
  | OpDeleteInvoice id => state_of (deleteInvoice id db)
  | OpCompleteInvoice id i => state_of (completeInvoice id i db)
  | OpSettleInvoice k id s w f => state_of (settleInvoice k id s w f db)
  | OpCreatePayment now k i => state_of (createPayment now k i db)
  | OpDeletePayment k h => state_of (deletePayment k h db)
  | OpSettlePayment now k h f w => state_of (settlePayment now k h f w db)
  end.

(** The fee arguments of a call are non-negative. *)
Definition fee_args_nonneg (o : Op) : Prop :=
  match o with
  | OpAddMiningFeePaid fee => 0 <= fee
  | OpSettleInvoice _ _ _ _ miningFee => 0 <= miningFee
  | OpSettlePayment _ _ _ feesPaid _ => 0 <= feesPaid
  | _ => True
  end.

(** ** Expected outcomes *)

(** The tables after [settleInvoice] has settled row [r]: the row is
    paid, the fee is added to the received counter, the wallet is
    upserted. *)
Definition settled_tables (clientKey : string) (id settledAt : Z)
    (next : WalletState) (fee : Z) (r : Rec) (t : Tables) : Tables :=
  set_wallets <[clientKey := next]>
    (set_fees (fun o => match o with
                        | None => Some (mkFeesRow 0 fee)
                        | Some f => Some (mkFeesRow (mining_fee_paid f)
                                                    (mining_fee_received f + fee))
                        end)
       (set_records <[id := settle_row settledAt r]> t)).

Definition run_ops (ops : list Op) (db : DB) : DB :=
  foldl (fun db o => run_op o db) db ops.

Definition is_add_paid (o : Op) : bool :=
  match o with OpAddMiningFeePaid _ => true | _ => false end.

(** ** Sample stores *)

Definition sample_wallet : WalletState := mkWalletState 5000 0 0.

(** One unpaid outgoing record of alice. *)
Definition rec_payment : Rec :=
  mkRec "alice" 1 0 "h1" "" "" "" (Some 1000) 0 100 0 0.

Definition db_payment : DB :=
  mkDB (mkTables {[1 := rec_payment]} 1 ∅ None) None.

(** An engine that refuses the wallet statement. *)
Definition failing_wallet : string → WalletState → Stmt :=
  fun _ _ t => Failed "constraint failed" t.

(** One settled incoming record of alice. *)
Definition rec_settled : Rec :=
  mkRec "alice" 0 1 "h2" "" "" "" (Some 2000) 0 100 220 150.

Definition db_settled : DB :=
  mkDB (mkTables {[1 := rec_settled]} 1 {["alice" := sample_wallet]}
                 (Some (mkFeesRow 0 0)))
       None.

Definition db_empty : DB := mkDB (mkTables ∅ 0 ∅ None) None.

(** One unpaid incoming record of alice. *)
Definition rec_invoice : Rec :=
  mkRec "alice" 0 0 "h7" "" "" "" (Some 5000) 0 100 220 0.

Definition db_invoice : DB :=
  mkDB (mkTables {[1 := rec_invoice]} 1 ∅ None) None.

(** The invoice the node returned, created at 200. *)
Definition sample_invoice : Invoice :=
  mkInvoice (mkTransaction incoming (Some "coffee") None None "h9"
                           21000 0 200 320 0)
            "lnbc210n1".

(** The two counters, as [getFees] reports them. *)
Definition paid (db : DB) : Z := miningFeePaid (fees_of (tables db)).
Definition received (db : DB) : Z := miningFeeReceived (fees_of (tables db)).

(** What a call adds to the paid counter. *)
Definition paid_delta (o : Op) : Z :=
  match o with OpAddMiningFeePaid fee => fee | _ => 0 end.

(** Two paid incoming records of alice, created at 100 and at 200. *)
Definition rec_old : Rec := mkRec "alice" 0 1 "h3" "" "" "" (Some 1000) 0 100 220 110.
Definition rec_new : Rec := mkRec "alice" 0 1 "h4" "" "" "" (Some 3000) 0 200 320 210.

Definition db_two_paid : DB :=
  mkDB (mkTables {[1 := rec_old; 2 := rec_new]} 2 ∅ None) None.

(** The first page of one transaction: paid incoming records, newest
    first. *)
Definition req_page : ListTransactionsReq :=
  mkListReq "alice" None None (Some 1) (Some 0) (Some false) (Some incoming).

Definition with_paging (limit offset : option Z) (req : ListTransactionsReq)
    : ListTransactionsReq :=
  mkListReq (req_clientPubkey req) (req_from req) (req_until req)
            limit offset (req_unpaid req) (req_type req).

(** An incoming record settled at 150 and an outgoing one settled at 300. *)
Definition rec_paid_out : Rec :=
  mkRec "alice" 1 1 "h5" "" "" "" (Some 4000) 12 250 0 300.

Definition db_mixed : DB :=
  mkDB (mkTables {[1 := rec_settled; 2 := rec_paid_out]} 2 ∅ None) None.

(** ** Further notions *)

(** The key whose wallet a call may write. *)
Definition op_client (o : Op) : option string :=
  match o with
  | OpSettleInvoice clientPubkey _ _ _ _ => Some clientPubkey
  | OpSettlePayment _ clientPubkey _ _ _ => Some clientPubkey
  | _ => None
  end.

(** What a store call may do to a record it keeps: the owner, the
    direction and the preimage stay, and so do the paid flag, the
    settled-at and the fees paid once the record is paid. *)
Definition kept_as (r r' : Rec) : Prop :=
  pubkey r' = pubkey r
  ∧ is_outgoing r' = is_outgoing r
  ∧ preimage r' = preimage r
  ∧ (is_paid r ≠ 0 →
     is_paid r' = is_paid r
     ∧ settled_at r' = settled_at r
     ∧ fees_paid r' = fees_paid r).

End Ledger.

(** ** The incoming-payment queue of the node adapter *)

Module Phoenixd.

(** [IncomingPayment], as the node reports it. *)
Record IncomingPayment := mkIncomingPayment {
  externalId : option string;
  completedAt : Z;
  receivedSat : Z;
  fees : Z;
  paymentHash : string
}.

(** The argument of [onIncomingPayment]. *)
Record PaymentEvent := mkPaymentEvent {
  ev_paymentHash : string;
  ev_settledAt : Z;
  ev_externalId : option string
}.

(** [Math.round(ms / 1000)]: halves go up. *)
Definition round_seconds (ms : Z) : Z := (ms + 500) / 1000.

Definition payment_event (p : IncomingPayment) : PaymentEvent :=
  mkPaymentEvent (paymentHash p) (round_seconds (completedAt p)) (externalId p).

(** A call of one of the two callbacks, and what an observer sees of it:
    its start and, later, its completion ([ok = false] when the promise
    is rejected). *)
Inductive Call :=
| LiquidityFee (fee : Z)
| IncomingPaymentCall (e : PaymentEvent).

Inductive Obs :=
| Begin (c : Call)
| End (c : Call) (ok : bool).

(** The [await] at which a run of [processIncomingPayments] is
    suspended. *)
Inductive Await := AwaitLiquidityFee | AwaitIncomingPayment.

(** The adapter: its queue, the suspended run of
    [processIncomingPayments] with its local [p], and the calls observed
    so far (oldest first). *)
Record St := mkSt {
  incomingPaymentQueue : list IncomingPayment;
  suspended : option (Await * IncomingPayment);
  trace : list Obs
}.

Definition init : St := mkSt [] None [].

Definition log (o : Obs) (s : St) : St :=
  mkSt (incomingPaymentQueue s) (suspended s) (trace s ++ [o]).

Definition suspend (a : Await) (p : IncomingPayment) (s : St) : St :=
  mkSt (incomingPaymentQueue s) (Some (a, p)) (trace s).

Definition call_fee (p : IncomingPayment) : Call := LiquidityFee (fees p).
Definition call_payment (p : IncomingPayment) : Call :=
  IncomingPaymentCall (payment_event p).

(** [processIncomingPayments], from its call to its first [await].  On an
    empty queue [p] is [undefined], the [TypeError] is caught, and the run
    ends without a call. *)
Definition processIncomingPayments (s : St) : St :=
  match incomingPaymentQueue s with
  | [] => s
  | p :: _ =>
      if fees p =? 0
      then suspend AwaitIncomingPayment p (log (Begin (call_payment p)) s)
      else suspend AwaitLiquidityFee p (log (Begin (call_fee p)) s)
  end.

(** The code after the [try] block: [shift], then the next run. *)
Definition after_entry (s : St) : St :=
  let s' := mkSt (tail (incomingPaymentQueue s)) None (trace s) in
  if (0 <? length (incomingPaymentQueue s'))%nat
  then processIncomingPayments s'
  else s'.

(** The awaited promise settles: the suspended run goes on to its next
    [await] or to its end. *)
Definition resume (ok : bool) (s : St) : St :=
  match suspended s with
  | None => s
  | Some (AwaitLiquidityFee, p) =>
      let s1 := log (End (call_fee p) ok) s in
      if ok
      then suspend AwaitIncomingPayment p (log (Begin (call_payment p)) s1)
      else after_entry s1
  | Some (AwaitIncomingPayment, p) =>
      after_entry (log (End (call_payment p) ok) s)
  end.

Definition push (p : IncomingPayment) (s : St) : St :=
  mkSt (incomingPaymentQueue s ++ [p]) (suspended s) (trace s).

Definition scheduleIncomingPayment (p : IncomingPayment) (s : St) : St :=
  let s' := push p s in
  if (length (incomingPaymentQueue s') =? 1)%nat
  then processIncomingPayments s'
  else s'.

(** [syncPaymentsSince], after the node has answered
    [payments/incoming?from=fromSec * 1000]; [node] is that answer. *)
Definition syncPaymentsSince (node : Z → list IncomingPayment) (fromSec : Z)
    (s : St) : St :=
  foldl (fun s p => scheduleIncomingPayment p s) s (reverse (node (fromSec * 1000))).

(** What the event loop delivers to the adapter. *)
Inductive Input :=
| Received (p : IncomingPayment)            (* [onMessage], lookup done *)
| Synced (payments : list IncomingPayment)  (* [syncPaymentsSince], list fetched *)
| Settled (ok : bool).                      (* the awaited callback is done *)

Definition step (s : St) (i : Input) : St :=
  match i with
  | Received p => scheduleIncomingPayment p s
  | Synced payments => syncPaymentsSince (fun _ => payments) 0 s
  | Settled ok => resume ok s
  end.

Definition run_inputs (inputs : list Input) (s : St) : St :=
  foldl step s inputs.

(** The payments handed to [scheduleIncomingPayment], in call order. *)
Definition enqueued (inputs : list Input) : list IncomingPayment :=
  inputs ≫= (fun i => match i with
                      | Received p => [p]
                      | Synced payments => reverse payments
                      | Settled _ => []
                      end).

(** The [onIncomingPayment] calls of a trace, in the order they began. *)
Definition payment_calls (tr : list Obs) : list PaymentEvent :=
  tr ≫= (fun o => match o with
                  | Begin (IncomingPaymentCall e) => [e]
                  | _ => []
                  end).

(** The next [n] awaited callbacks all resolve. *)
Fixpoint settle_all (n : nat) (s : St) : St :=
  match n with
  | O => s
  | S n => settle_all n (resume true s)
  end.

(** *** Sequential traces *)

(** The calls of one entry processed to its end. *)
Inductive episode (p : IncomingPayment) : list Obs → Prop :=
| episode_fee_failed :
    fees p ≠ 0 →
    episode p [Begin (call_fee p); End (call_fee p) false]
| episode_fee_payment ok :
    fees p ≠ 0 →
    episode p [Begin (call_fee p); End (call_fee p) true;
               Begin (call_payment p); End (call_payment p) ok]
| episode_payment ok :
    fees p = 0 →
    episode p [Begin (call_payment p); End (call_payment p) ok].

(** The calls of the entry being processed, suspended at an [await]. *)
Inductive in_progress (p : IncomingPayment)
    : option (Await * IncomingPayment) → list Obs → Prop :=
| in_fee :
    fees p ≠ 0 →
    in_progress p (Some (AwaitLiquidityFee, p)) [Begin (call_fee p)]
| in_payment_after_fee :
    fees p ≠ 0 →
    in_progress p (Some (AwaitIncomingPayment, p))
      [Begin (call_fee p); End (call_fee p) true; Begin (call_payment p)]
| in_payment :
    fees p = 0 →
    in_progress p (Some (AwaitIncomingPayment, p)) [Begin (call_payment p)].

(** A trace made of the complete episodes of [ps], one after the other. *)
Inductive sequential : list IncomingPayment → list Obs → Prop :=
| sequential_nil : sequential [] []
| sequential_snoc ps t p e :
    sequential ps t → episode p e → sequential (ps ++ [p]) (t ++ e).

(** The front of the queue is the one entry in progress; with an empty
    queue nothing is. *)
Definition front_in_progress (s : St) (cur : list Obs) : Prop :=
  match incomingPaymentQueue s with
  | [] => suspended s = None ∧ cur = []
  | p :: _ => in_progress p (suspended s) cur
  end.

(** Processed entries, then the queue, are the enqueued payments in
    order; the trace is the episodes of the processed entries followed by
    the calls of the front entry. *)
Definition drained_in_order (all : list IncomingPayment) (s : St) : Prop :=
  ∃ done t cur,
    all = (done ++ incomingPaymentQueue s)%list
    ∧ trace s = (t ++ cur)%list
    ∧ sequential done t
    ∧ front_in_progress s cur.

(** Newest first, as the node lists payments, and oldest first, as the
    callbacks should see them. *)
Definition newest_first : relation IncomingPayment :=
  fun p1 p2 => completedAt p2 <= completedAt p1.

Definition chronological : relation PaymentEvent :=
  fun e1 e2 => ev_settledAt e1 <= ev_settledAt e2.

(** *** Sample payments *)

Definition P1 : IncomingPayment := mkIncomingPayment (Some "1") 10000 100 0 "hash1".
Definition P2 : IncomingPayment := mkIncomingPayment (Some "2") 20000 200 0 "hash2".
Definition P3 : IncomingPayment := mkIncomingPayment (Some "3") 30000 300 5 "hash3".

(** A node that lists P3 (t = 30), P1 (t = 10), P2 (t = 20). *)
Definition node_unsorted : Z → list IncomingPayment := fun _ => [P3; P1; P2].

(** A node that lists newest first. *)
Definition node_sorted : Z → list IncomingPayment := fun _ => [P3; P2; P1].

(** *** Invoice creation *)

Definition DEFAULT_EXPIRY : Z := 120.

(** [MakeInvoiceReq] of [types.ts], with the fields [makeInvoice] reads. *)
Record MakeInvoiceReq := mkMakeInvoiceReq {
  mi_amount : Z;
  mi_expiry : option Z;
  mi_description : option string;
  mi_description_hash : option string
}.

(** The parameters of [createinvoice]; the numbers are sent in decimal. *)
Record MakeInvoiceRequest := mkMakeInvoiceRequest {
  rq_amountSat : Z;
  rq_externalId : string;
  rq_expirySeconds : Z;
  rq_description : option string;
  rq_descriptionHash : option string
}.

Record MakeInvoiceReply := mkMakeInvoiceReply {
  rp_amountSat : Z;
  rp_paymentHash : string;
  rp_serialized : string
}.

(** [Math.ceil(msat / 1000)] *)
Definition ceil_sat (msat : Z) : Z := - ((- msat) / 1000).

(** [if (s) ...]: an absent or empty string is not sent. *)
Definition truthy (o : option string) : option string :=
  match o with
  | Some s => Ledger.nonempty s
  | None => None
  end.

Definition makeInvoice_expiry (req : MakeInvoiceReq) : Z :=
  Ledger.or_else (mi_expiry req) DEFAULT_EXPIRY.

Definition makeInvoice_params (id : string) (req : MakeInvoiceReq)
    : MakeInvoiceRequest :=
  mkMakeInvoiceRequest (ceil_sat (mi_amount req)) id (makeInvoice_expiry req)
                       (truthy (mi_description req))
                       (truthy (mi_description_hash req)).

(** The integer [x] as a double: itself below 2^53, and above rounded
    to 53 significant bits, ties to even. *)
Definition round_double (x : Z) : Z :=
  let a := Z.abs x in
  if a <? 2 ^ 53 then x
  else
    let e := Z.log2 a - 52 in
    let q := a / 2 ^ e in
    let r := a mod 2 ^ e in
    let half := 2 ^ (e - 1) in
    let q' := if r <? half then q
              else if half <? r then q + 1
              else if Z.even q then q else q + 1 in
    Z.sgn x * (q' * 2 ^ e).

(** [a * b] on integer-valued numbers: the product, rounded to a double
    (overflow to [Infinity] is out of reach of an amount). *)
Definition js_mul (a b : Z) : Z := round_double (a * b).

(** [makeInvoice]; [call] is the node's answer to [createinvoice] or the
    error of the call, [now] the clock after the answer.  The fields of
    [Transaction] that the returned object does not have read as
    [undefined], here their empty values. *)
Definition makeInvoice (call : MakeInvoiceRequest → MakeInvoiceReply + string)
    (now : Z) (id : string) (req : MakeInvoiceReq) : Ledger.Invoice + string :=
  match call (makeInvoice_params id req) with
  | inr e => inr e
  | inl r =>
      let created_at := now in
      inl (Ledger.mkInvoice
             (Ledger.mkTransaction Ledger.incoming
                                   (mi_description req)
                                   (mi_description_hash req)
                                   None
                                   (rp_paymentHash r)
                                   (js_mul (rp_amountSat r) 1000)
                                   0
                                   created_at
                                   (created_at + makeInvoice_expiry req)
                                   0)
             (rp_serialized r))
  end.

(** The queued entries whose [onIncomingPayment] call has not begun: all
    but the front entry when the run is suspended in that call. *)
Definition not_yet_called (s : St) : list IncomingPayment :=
  match suspended s with
  | Some (AwaitIncomingPayment, _) => tail (incomingPaymentQueue s)
  | _ => incomingPaymentQueue s
  end.

(** The [onLiquidityFee] calls of a trace, in the order they began. *)
Definition fee_calls (tr : list Obs) : list Z :=
  tr ≫= (fun o => match o with
                  | Begin (LiquidityFee fee) => [fee]
                  | _ => []
                  end).

End Phoenixd.

(** * Properties of the ledger store *)

Module LedgerFacts.
Import Ledger.

(** Unfolds a store call down to the statements it runs. *)
Ltac run_m :=
  unfold settleInvoice, settlePayment, settlePayment_with, updateWalletState,
    updateWalletState_with, getInvoiceById, addMiningFeePaid, deleteInvoice,
    completeInvoice, createInvoice, createPayment, deletePayment, run_insert,
    getLastInvoiceSettledAt, listTransactions, run_select,
    bind, try_catch, ret, throw, run, query,
    exec_begin, exec_rollback, exec_commit;
  cbn [saved tables].

(** ** [settleInvoice], case by case *)

Lemma settleInvoice_unpaid t id r clientKey settledAt next fee :
  records t !! id = Some r →
  is_outgoing r = 0 → is_paid r = 0 → pubkey r = clientKey →
  settleInvoice clientKey id settledAt next fee (mkDB t None)
  = Ok true (mkDB (settled_tables clientKey id settledAt next fee r t) None).
Proof.
  intros Hr Ho Hp Hk. run_m. unfold select_invoice. rewrite Hr, Ho. cbn.
  rewrite Ho. cbn. rewrite Hk, String.eqb_refl. cbn.
  unfold settle_invoice_stmt. by rewrite Hr, Hp.
Qed.

Lemma settleInvoice_paid t id r clientKey settledAt next fee :
  records t !! id = Some r →
  is_outgoing r = 0 → is_paid r ≠ 0 → pubkey r = clientKey →
  settleInvoice clientKey id settledAt next fee (mkDB t None)
  = Ok false (mkDB t None).
Proof.
  intros Hr Ho Hp Hk. run_m. unfold select_invoice. rewrite Hr, Ho. cbn.
  rewrite Ho. cbn. rewrite Hk, String.eqb_refl. cbn.
  unfold settle_invoice_stmt. rewrite Hr.
  destruct (Z.eqb_spec (is_paid r) 0) as [E|_]; [done|]. reflexivity.
Qed.

Lemma settleInvoice_foreign t id clientKey settledAt next fee :
  (∀ r, records t !! id = Some r → is_outgoing r = 0 → pubkey r ≠ clientKey) →
  settleInvoice clientKey id settledAt next fee (mkDB t None)
  = Throw "Invalid clientPubkey for settleInvoice" (mkDB t None).
Proof.
  intros Hforeign. run_m. unfold select_invoice.
  destruct (records t !! id) as [r|] eqn:Hr; [|done].
  destruct (Z.eqb_spec (is_outgoing r) 0) as [Ho|Ho]; [|done].
  cbn. rewrite Ho. cbn.
  destruct (String.eqb_spec (pubkey r) clientKey) as [Hk|Hk]; [|done].
  by destruct (Hforeign r).
Qed.

Lemma settleInvoice_in_tx t t0 clientKey id settledAt next fee :
  settleInvoice clientKey id settledAt next fee (mkDB t (Some t0))
  = Throw "cannot start a transaction within a transaction" (mkDB t (Some t0)).
Proof. reflexivity. Qed.

(** Whatever the outcome, the store is as before or has settled one
    unpaid incoming row of the caller. *)
Lemma settleInvoice_outcomes clientKey id settledAt next fee db :
  state_of (settleInvoice clientKey id settledAt next fee db) = db
  ∨ ∃ r, records (tables db) !! id = Some r
         ∧ state_of (settleInvoice clientKey id settledAt next fee db)
           = mkDB (settled_tables clientKey id settledAt next fee r (tables db)) None.
Proof.
  destruct db as [t [t0|]]; [by left|].
  destruct (records t !! id) as [r|] eqn:Hr.
  - destruct (decide (is_outgoing r = 0)) as [Ho|Ho].
    + destruct (decide (pubkey r = clientKey)) as [Hk|Hk].
      * destruct (decide (is_paid r = 0)) as [Hp|Hp].
        -- right. exists r. split; [done|].
           by rewrite (settleInvoice_unpaid _ _ r).
        -- left. by rewrite (settleInvoice_paid _ _ r).
      * left. rewrite settleInvoice_foreign; [done|]. intros r' ?. by simplify_eq.
    + left. rewrite settleInvoice_foreign; [done|]. intros r' ?. by simplify_eq.
  - left. rewrite settleInvoice_foreign; [done|]. intros r' ?. by simplify_eq.
Qed.

(** C1. An unpaid incoming record is settled once: the first
    [settleInvoice] by the owning key returns [true], marks the record paid
    with the given settled-at, adds the liquidity fee to the received-fee
    counter and upserts the wallet; any further [settleInvoice] on the
    record, with any settled-at, wallet state or fee, returns [false] and
    leaves the store as the first call left it. *)
Theorem settleInvoice_idempotent (db : DB) (id : Z) (r : Rec)
    (clientKey : string) (settledAt : Z) (next : WalletState) (fee : Z) :
  saved db = None →
  records (tables db) !! id = Some r →
  is_outgoing r = 0 → is_paid r = 0 → pubkey r = clientKey →
  ∃ db1 r1,
    settleInvoice clientKey id settledAt next fee db = Ok true db1
    ∧ saved db1 = None
    ∧ records (tables db1) = <[id := r1]> (records (tables db))
    ∧ r1 = settle_row settledAt r
    ∧ is_paid r1 = 1 ∧ settled_at r1 = settledAt
    ∧ miningFeeReceived (fees_of (tables db1))
      = miningFeeReceived (fees_of (tables db)) + fee
    ∧ miningFeePaid (fees_of (tables db1)) = miningFeePaid (fees_of (tables db))
    ∧ wallets (tables db1) = <[clientKey := next]> (wallets (tables db))
    ∧ ∀ settledAt' next' fee',
        settleInvoice clientKey id settledAt' next' fee' db1 = Ok false db1.
Proof.
  intros Hs Hr Ho Hp Hk. destruct db as [t sv]. cbn in Hs, Hr. subst sv.
  eexists _, _. split; [by apply (settleInvoice_unpaid t id r)|].
  cbn [saved tables]. repeat split.
  - unfold fees_of. cbn. by destruct (fees t).
  - unfold fees_of. cbn. by destruct (fees t).
  - intros settledAt' next' fee'.
    apply (settleInvoice_paid _ id (settle_row settledAt r)); try done.
    cbn. apply lookup_insert_eq.
Qed.

Lemma settleInvoice_idempotent_witness :
  ∃ db1,
    settleInvoice "alice" 1 150 sample_wallet 7 db_invoice = Ok true db1
    ∧ wallets (tables db1) = {["alice" := sample_wallet]}
    ∧ received db1 = 7
    ∧ settleInvoice "alice" 1 999 (mkWalletState 0 0 0) 3 db1 = Ok false db1.
Proof.
  destruct (settleInvoice_idempotent db_invoice 1 rec_invoice "alice" 150
              sample_wallet 7)
    as (db1 & r1 & Hrun & _ & _ & _ & _ & _ & Hrecv & _ & Hw & Hdup);
    try reflexivity.
  exists db1. split; [exact Hrun|]. split; [exact Hw|].
  split; [exact Hrecv|]. apply Hdup.
Defined.

(** C3. [settleInvoice] by a key that does not own the record (or on an
    id that is no incoming record at all) fails with the unauthorized
    error and leaves records, wallets and fee counters as they were. *)
Theorem settleInvoice_unauthorized (db : DB) (id : Z) (clientKey : string)
    (settledAt : Z) (next : WalletState) (fee : Z) :
  saved db = None →
  (∀ r, records (tables db) !! id = Some r → is_outgoing r = 0 →
        pubkey r ≠ clientKey) →
  settleInvoice clientKey id settledAt next fee db
  = Throw "Invalid clientPubkey for settleInvoice" db.
Proof.
  intros Hs Hforeign. destruct db as [t sv]. cbn in Hs, Hforeign. subst sv.
  by apply settleInvoice_foreign.
Qed.

Lemma settleInvoice_unauthorized_witness :
  settleInvoice "mallory" 1 150 sample_wallet 7 db_invoice
  = Throw "Invalid clientPubkey for settleInvoice" db_invoice.
Proof.
  apply settleInvoice_unauthorized; [reflexivity|].
  intros r Hr _. vm_compute in Hr. injection Hr as <-. discriminate.
Defined.

(** ** [settlePayment] *)

Lemma settlePayment_with_throws wallet now clientKey paymentHash feesPaid next t e db' :
  settlePayment_with wallet now clientKey paymentHash feesPaid next (mkDB t None)
  = Throw e db' →
  db' = mkDB t None.
Proof.
  run_m. unfold settle_payment_stmt. cbn [saved tables].
  destruct (negb _); cbn; [congruence|].
  destruct (wallet _ _ _) as [c t1|e1 t1]; cbn; [|congruence].
  destruct (negb _); cbn; congruence.
Qed.

(** C2. Whatever statement the engine runs for the wallet upsert, a
    [settlePayment] that fails leaves the store exactly as it was: the
    matching record is still unpaid and no wallet row has changed.  In
    particular a failing wallet upsert after a successful paid-flag update
    propagates its error after the rollback, and so does an update that
    did not change exactly one row. *)
Theorem settlePayment_all_or_nothing (wallet : string → WalletState → Stmt)
    (now : Z) (clientKey paymentHash : string) (feesPaid : Z)
    (next : WalletState) (db : DB) :
  saved db = None →
  (∀ e db',
     settlePayment_with wallet now clientKey paymentHash feesPaid next db
     = Throw e db' →
     db' = db)
  ∧ (∀ t1 e t',
       settle_payment_stmt feesPaid now clientKey paymentHash (tables db)
       = Done 1 t1 →
       wallet clientKey next t1 = Failed e t' →
       settlePayment_with wallet now clientKey paymentHash feesPaid next db
       = Throw e db)
  ∧ (∀ c t1,
       settle_payment_stmt feesPaid now clientKey paymentHash (tables db)
       = Done c t1 →
       c ≠ 1 →
       settlePayment_with wallet now clientKey paymentHash feesPaid next db
       = Throw "Payment not found by paymentHash" db).
Proof.
  intros Hs. destruct db as [t sv]. cbn in Hs. subst sv. cbn [tables].
  split; [|split].
  - intros e db'. apply settlePayment_with_throws.
  - intros t1 e t' Hupd Hw. run_m. rewrite Hupd. cbn. by rewrite Hw.
  - intros c t1 Hupd Hc. run_m. rewrite Hupd. cbn.
    destruct (Z.eqb_spec c 1); [done|]. reflexivity.
Qed.

Lemma settlePayment_all_or_nothing_witness :
  saved db_payment = None
  ∧ settlePayment_with failing_wallet 50 "alice" "h1" 3 sample_wallet db_payment
    = Throw "constraint failed" db_payment.
Proof.
  split; [reflexivity|].
  eapply (proj1 (proj2 (settlePayment_all_or_nothing
                          failing_wallet 50 "alice" "h1" 3 sample_wallet
                          db_payment eq_refl))).
  - vm_compute. reflexivity.
  - reflexivity.
Defined.

(** ** [deleteInvoice] *)

(** C4, as stated, fails: a settled incoming record is deleted. *)
Lemma deleteInvoice_deletes_settled :
  records (tables db_settled) !! 1 = Some rec_settled
  ∧ is_outgoing rec_settled = 0
  ∧ is_paid rec_settled = 1
  ∧ records (tables (state_of (deleteInvoice 1 db_settled))) !! 1 = None
  ∧ deleteInvoice 1 db_settled ≠ Ok tt db_settled.
Proof.
  assert (Hgone : records (tables (state_of (deleteInvoice 1 db_settled))) !! 1 = None)
    by (vm_compute; reflexivity).
  repeat split; try (vm_compute; reflexivity).
  intros Heq. rewrite Heq in Hgone. vm_compute in Hgone. discriminate.
Qed.

(** C4, amended. [deleteInvoice] removes the record with the given id
    whenever it is an incoming record, settled or not; on an absent id or
    an outgoing record it raises no error and leaves the store
    unchanged. *)
Theorem deleteInvoice_incoming_only (id : Z) (db : DB) :
  (∀ r, records (tables db) !! id = Some r → is_outgoing r = 0 →
        deleteInvoice id db
        = Ok tt (mkDB (set_records (delete id) (tables db)) (saved db)))
  ∧ (records (tables db) !! id = None → deleteInvoice id db = Ok tt db)
  ∧ (∀ r, records (tables db) !! id = Some r → is_outgoing r ≠ 0 →
          deleteInvoice id db = Ok tt db).
Proof.
  destruct db as [t sv]. cbn [tables saved]. split; [|split].
  - intros r Hr Ho. run_m. unfold delete_invoice_stmt. by rewrite Hr, Ho.
  - intros Hr. run_m. unfold delete_invoice_stmt. by rewrite Hr.
  - intros r Hr Ho. run_m. unfold delete_invoice_stmt. rewrite Hr.
    by destruct (Z.eqb_spec (is_outgoing r) 0).
Qed.

Lemma deleteInvoice_incoming_only_witness :
  deleteInvoice 1 db_settled
  = Ok tt (mkDB (set_records (delete 1) (tables db_settled)) (saved db_settled))
  ∧ deleteInvoice 2 db_settled = Ok tt db_settled
  ∧ deleteInvoice 1 db_payment = Ok tt db_payment.
Proof.
  split; [|split].
  - apply (proj1 (deleteInvoice_incoming_only 1 db_settled) rec_settled);
      vm_compute; reflexivity.
  - apply (proj1 (proj2 (deleteInvoice_incoming_only 2 db_settled)));
      vm_compute; reflexivity.
  - apply (proj2 (proj2 (deleteInvoice_incoming_only 1 db_payment)) rec_payment);
      [vm_compute; reflexivity | discriminate].
Defined.

(** ** [completeInvoice] *)

(** C9, as stated, fails: the created-at stamp of [createInvoice] is
    replaced by the invoice's. *)
Lemma completeInvoice_overwrites_created_at :
  created_at <$> records (tables (state_of (createInvoice 100 "alice" db_empty))) !! 1
  = Some 100
  ∧ created_at <$>
      records (tables (state_of (completeInvoice 1 sample_invoice
                                   (state_of (createInvoice 100 "alice" db_empty))))) !! 1
    = Some 200.
Proof. split; vm_compute; reflexivity. Qed.

(** C9, amended. On an existing record [completeInvoice] writes the
    payment hash, description, description hash, amount, expiry and also
    the created-at of the invoice; the owning key, direction, paid flag,
    preimage, fees paid and settled-at of the record, every other record,
    the wallets and the fee counters are unchanged. *)
Theorem completeInvoice_frame (id : Z) (invoice : Invoice) (db : DB) (r : Rec) :
  records (tables db) !! id = Some r →
  ∃ r',
    completeInvoice id invoice db
    = Ok tt (mkDB (set_records <[id := r']> (tables db)) (saved db))
    ∧ payment_hash r' = tx_payment_hash (inv_tx invoice)
    ∧ description r' = or_empty (tx_description (inv_tx invoice))
    ∧ description_hash r' = or_empty (tx_description_hash (inv_tx invoice))
    ∧ amount r' = Some (tx_amount (inv_tx invoice))
    ∧ expires_at r' = tx_expires_at (inv_tx invoice)
    ∧ created_at r' = tx_created_at (inv_tx invoice)
    ∧ pubkey r' = pubkey r
    ∧ is_outgoing r' = is_outgoing r
    ∧ is_paid r' = is_paid r
    ∧ preimage r' = preimage r
    ∧ fees_paid r' = fees_paid r
    ∧ settled_at r' = settled_at r.
Proof.
  intros Hr. exists (complete_row invoice r). split; [|done].
  destruct db as [t sv]. cbn [tables saved] in *.
  run_m. unfold complete_invoice_stmt. by rewrite Hr.
Qed.

Lemma completeInvoice_frame_witness :
  ∃ r',
    completeInvoice 1 sample_invoice db_settled
    = Ok tt (mkDB (set_records <[1 := r']> (tables db_settled)) (saved db_settled))
    ∧ created_at r' = 200
    ∧ is_paid r' = 1
    ∧ settled_at r' = 150.
Proof.
  destruct (completeInvoice_frame 1 sample_invoice db_settled rec_settled)
    as (r' & Hrun & _ & _ & _ & _ & _ & Hc & _ & _ & Hp & _ & _ & Hs).
  - vm_compute. reflexivity.
  - exists r'. repeat split; [exact Hrun | exact Hc | exact Hp | exact Hs].
Defined.

(** ** Fee counters *)

Lemma getFees_reads db :
  js_safe (paid db) = true → js_safe (received db) = true →
  getFees db = Ok (mkFees (paid db) (received db)) db.
Proof.
  unfold getFees, select_fees, paid, received, fees_of.
  destruct (fees (tables db)) as [r|]; cbn; [|done].
  by intros -> ->.
Qed.

Lemma addMiningFeePaid_ok fee db :
  addMiningFeePaid fee db = Ok tt (run_op (OpAddMiningFeePaid fee) db).
Proof. reflexivity. Qed.

Lemma add_paid fee db :
  paid (run_op (OpAddMiningFeePaid fee) db) = paid db + fee
  ∧ received (run_op (OpAddMiningFeePaid fee) db) = received db.
Proof.
  destruct db as [[rs sq ws [f|]] sv]; unfold paid, received, fees_of; cbn; lia.
Qed.

Lemma settlePayment_fees now clientKey paymentHash feesPaid next db :
  fees (tables (state_of (settlePayment now clientKey paymentHash feesPaid next db)))
  = fees (tables db).
Proof.
  destruct db as [t [t0|]]; [reflexivity|].
  run_m. unfold settle_payment_stmt, upsert_wallet. cbn [saved tables].
  destruct (negb _); reflexivity.
Qed.

Lemma settleInvoice_fees clientKey id settledAt next fee db :
  paid (run_op (OpSettleInvoice clientKey id settledAt next fee) db) = paid db
  ∧ (received (run_op (OpSettleInvoice clientKey id settledAt next fee) db)
     = received db
     ∨ received (run_op (OpSettleInvoice clientKey id settledAt next fee) db)
       = received db + fee).
Proof.
  cbn [run_op].
  destruct (settleInvoice_outcomes clientKey id settledAt next fee db)
    as [->|(r & _ & ->)]; [by auto|].
  unfold paid, received, fees_of. cbn.
  destruct (fees (tables db)); cbn; auto.
Qed.

(** A call other than [addMiningFeePaid] and [settleInvoice] leaves the
    fee row alone. *)
Lemma run_op_fees o db :
  match o with
  | OpAddMiningFeePaid _ | OpSettleInvoice _ _ _ _ _ => True
  | _ => fees (tables (run_op o db)) = fees (tables db)
  end.
Proof.
  destruct o; try exact I; cbn [run_op].
  - reflexivity.
  - run_m. unfold delete_invoice_stmt.
    destruct (records (tables db) !! id) as [r|]; [|done].
    by destruct (is_outgoing r =? 0).
  - run_m. unfold complete_invoice_stmt.
    by destruct (records (tables db) !! id) as [r|].
  - reflexivity.
  - reflexivity.
  - apply settlePayment_fees.
Qed.

Lemma run_op_paid o db : paid (run_op o db) = paid db + paid_delta o.
Proof.
  destruct o; cbn [paid_delta];
    try (unfold paid, fees_of;
         match goal with
         | |- context [run_op ?o db] => pose proof (run_op_fees o db) as H
         end; cbn beta iota in H; rewrite H; lia).
  - apply add_paid.
  - rewrite (proj1 (settleInvoice_fees _ _ _ _ _ _)). lia.
Qed.

Lemma run_op_received o db :
  fee_args_nonneg o → received db <= received (run_op o db).
Proof.
  intros Hnn.
  destruct o; cbn [fee_args_nonneg] in Hnn;
    try (unfold received, fees_of;
         match goal with
         | |- context [run_op ?o db] => pose proof (run_op_fees o db) as H
         end; cbn beta iota in H; rewrite H; lia).
  - rewrite (proj2 (add_paid _ _)). lia.
  - destruct (proj2 (settleInvoice_fees clientPubkey id settledAt walletState
                       miningFee db)) as [->| ->]; lia.
Qed.

Lemma run_ops_app ops1 ops2 db :
  run_ops (ops1 ++ ops2) db = run_ops ops2 (run_ops ops1 db).
Proof. unfold run_ops. apply foldl_app. Qed.

Lemma run_ops_paid_other ops db :
  Forall (fun o => is_add_paid o = false) ops →
  paid (run_ops ops db) = paid db.
Proof.
  intros Hops. revert db. induction Hops as [|o ops Ho _ IH]; intros db; [done|].
  change (run_ops (o :: ops) db) with (run_ops ops (run_op o db)).
  rewrite IH, run_op_paid. destruct o; cbn in *; first [lia | discriminate].
Qed.

(** C7. Two [addMiningFeePaid] calls succeed and leave the paid counter
    at its prior value (zero for an empty fee table) plus the sum of the
    amounts, in either call order and whatever other store calls, fee
    received updates included, run in between; and no store call with
    non-negative fee arguments lowers either counter. *)
Theorem mining_fee_paid_additive (db : DB) (a b : Z) :
  (∃ db1 db2,
     addMiningFeePaid a db = Ok tt db1
     ∧ addMiningFeePaid b db1 = Ok tt db2
     ∧ paid db2 = paid db + (a + b))
  ∧ run_ops [OpAddMiningFeePaid a; OpAddMiningFeePaid b] db
    = run_ops [OpAddMiningFeePaid b; OpAddMiningFeePaid a] db
  ∧ (∀ ops,
       Forall (fun o => is_add_paid o = false) ops →
       paid (run_ops (OpAddMiningFeePaid a :: ops ++ [OpAddMiningFeePaid b]) db)
       = paid db + (a + b))
  ∧ (tables db = tables db_empty → paid db = 0)
  ∧ (∀ o, fee_args_nonneg o →
          paid db <= paid (run_op o db) ∧ received db <= received (run_op o db)).
Proof.
  split; [|split; [|split; [|split]]].
  - eexists _, _. split; [apply addMiningFeePaid_ok|].
    split; [apply addMiningFeePaid_ok|].
    rewrite !(proj1 (add_paid _ _)). lia.
  - destruct db as [[rs sq ws [f|]] sv]; cbn; unfold set_fees; cbn;
      do 3 f_equal; f_equal; lia.
  - intros ops Hops.
    change (run_ops (OpAddMiningFeePaid a :: ops ++ [OpAddMiningFeePaid b]) db)
      with (run_ops (ops ++ [OpAddMiningFeePaid b]) (run_op (OpAddMiningFeePaid a) db)).
    rewrite run_ops_app. cbn [run_ops foldl].
    rewrite (proj1 (add_paid _ _)), run_ops_paid_other by done.
    rewrite (proj1 (add_paid _ _)). lia.
  - intros Ht. unfold paid. by rewrite Ht.
  - intros o Hnn. split; [|by apply run_op_received].
    rewrite run_op_paid. destruct o; cbn in *; lia.
Qed.

Lemma mining_fee_paid_additive_witness :
  fee_args_nonneg (OpSettleInvoice "alice" 1 150 sample_wallet 7)
  ∧ paid db_settled
    <= paid (run_op (OpSettleInvoice "alice" 1 150 sample_wallet 7) db_settled)
  ∧ received db_settled
    <= received (run_op (OpSettleInvoice "alice" 1 150 sample_wallet 7) db_settled)
  ∧ paid (run_ops [OpAddMiningFeePaid 3;
                   OpSettleInvoice "alice" 1 150 sample_wallet 7;
                   OpAddMiningFeePaid 4] db_empty)
    = paid db_empty + (3 + 4).
Proof.
  assert (Hnn : fee_args_nonneg (OpSettleInvoice "alice" 1 150 sample_wallet 7))
    by (cbn; lia).
  split; [exact Hnn|].
  split; [|split].
  - exact (proj1 (proj2 (proj2 (proj2 (proj2
             (mining_fee_paid_additive db_settled 0 0)))) _ Hnn)).
  - exact (proj2 (proj2 (proj2 (proj2 (proj2
             (mining_fee_paid_additive db_settled 0 0)))) _ Hnn)).
  - apply (proj1 (proj2 (proj2 (mining_fee_paid_additive db_empty 3 4)))
             [OpSettleInvoice "alice" 1 150 sample_wallet 7]).
    repeat constructor.
Defined.

(** ** [listTransactions] *)

(** The statement has two more [?] than the call binds arguments: LIMIT
    and OFFSET are NULL, whatever the request. *)
Lemma list_args_unbound now req :
  param (list_args now req) (length (list_conds req)) = SqlNull
  ∧ param (list_args now req) (S (length (list_conds req))) = SqlNull.
Proof.
  unfold list_args, list_conds, param.
  destruct (not_unpaid req), (req_type req) as [[|]|]; split; reflexivity.
Qed.

Lemma listTransactions_unbound now req db :
  listTransactions now req db = Throw "datatype mismatch" db.
Proof.
  run_m. unfold select_transactions.
  destruct (list_args_unbound now req) as [-> _]. reflexivity.
Qed.

(** C8 at a failing input: with two paid incoming records and a request
    for one transaction per page, the call does not return the newest
    record; the statement is run with LIMIT and OFFSET unbound, ends in a
    datatype mismatch, and the outcome is the same for every limit and
    offset of the request. *)
Theorem listTransactions_ignores_paging :
  listTransactions 1000 req_page db_two_paid = Throw "datatype mismatch" db_two_paid
  ∧ listTransactions 1000 req_page db_two_paid ≠ Ok [recToTx rec_new] db_two_paid
  ∧ ∀ limit offset,
      listTransactions 1000 (with_paging limit offset req_page) db_two_paid
      = listTransactions 1000 req_page db_two_paid.
Proof.
  split; [apply listTransactions_unbound|].
  split; [rewrite listTransactions_unbound; discriminate|].
  intros limit offset. by rewrite !listTransactions_unbound.
Qed.

(** ** [getLastInvoiceSettledAt] *)

#[local] Instance later_first_total : Total later_first.
Proof. intros a b. unfold later_first. lia. Qed.

#[local] Instance later_first_trans : Transitive later_first.
Proof. intros a b c. unfold later_first. lia. Qed.

(** The head of the descending sort is the maximum. *)
Lemma head_later_first (l : list Z) :
  match head (merge_sort later_first l) with
  | None => l = []
  | Some m => m ∈ l ∧ ∀ x, x ∈ l → x <= m
  end.
Proof.
  pose proof (merge_sort_Permutation later_first l) as Hperm.
  pose proof (StronglySorted_merge_sort later_first l) as Hsorted.
  destruct (merge_sort later_first l) as [|m s]; cbn.
  - by apply Permutation_nil in Hperm.
  - split.
    + rewrite <- Hperm. by left.
    + intros x Hx. rewrite <- Hperm in Hx.
      apply StronglySorted_inv in Hsorted as [_ Hall].
      apply elem_of_cons in Hx as [->|Hx]; [lia|].
      rewrite Forall_forall in Hall. by apply Hall.
Qed.

Lemma elem_of_settled_at (m : gmap Z Rec) (x : Z) :
  x ∈ settled_at <$> (map_to_list m).*2
  ↔ ∃ id r, m !! id = Some r ∧ settled_at r = x.
Proof.
  rewrite list_elem_of_fmap. split.
  - intros (r & -> & Hr). apply list_elem_of_fmap in Hr as ([id r'] & -> & Hin).
    apply elem_of_map_to_list in Hin. by exists id, r'.
  - intros (id & r & Hr & <-). exists r. split; [done|].
    apply list_elem_of_fmap. exists (id, r). split; [done|].
    by apply elem_of_map_to_list.
Qed.

(** C10. [getLastInvoiceSettledAt] returns the largest settled-at of all
    records, outgoing ones included, and 0 when there is no record; so an
    outgoing record settled later than every incoming one puts the
    watermark past all of them. *)
Theorem getLastInvoiceSettledAt_max (db : DB) :
  ∃ w,
    getLastInvoiceSettledAt db = Ok w db
    ∧ (records (tables db) = ∅ → w = 0)
    ∧ (records (tables db) ≠ ∅ →
       ∃ id r, records (tables db) !! id = Some r ∧ settled_at r = w)
    ∧ (∀ id r, records (tables db) !! id = Some r → settled_at r <= w)
    ∧ (∀ id r,
         records (tables db) !! id = Some r →
         is_outgoing r ≠ 0 →
         (∀ id' r', records (tables db) !! id' = Some r' → is_outgoing r' = 0 →
                    settled_at r' < settled_at r) →
         ∀ id' r', records (tables db) !! id' = Some r' → is_outgoing r' = 0 →
                   settled_at r' < w).
Proof.
  destruct db as [t sv]. cbn [tables].
  eexists. split; [reflexivity|]. unfold select_last_settled. cbn [tables].
  pose proof (head_later_first (settled_at <$> (map_to_list (records t)).*2)) as Hhead.
  destruct (head _) as [m|]; cbn [or0].
  - destruct Hhead as [Hin Hmax].
    assert (Hle : ∀ id r, records t !! id = Some r → settled_at r <= m).
    { intros id r Hr. apply Hmax, elem_of_settled_at. by exists id, r. }
    split; [|split; [|split; [done|]]].
    + intros Hempty. rewrite Hempty, map_to_list_empty in Hin.
      by apply elem_of_nil in Hin.
    + intros _. by apply elem_of_settled_at.
    + intros id r Hr _ Hnewer id' r' Hr' Ho'.
      specialize (Hnewer id' r' Hr' Ho'). specialize (Hle id r Hr). lia.
  - assert (Hempty : records t = ∅).
    { apply fmap_nil_inv, fmap_nil_inv in Hhead. by apply map_to_list_empty_iff. }
    split; [done|]. split; [done|].
    split; intros id r Hr; rewrite Hempty in Hr; by rewrite lookup_empty in Hr.
Qed.

Lemma getLastInvoiceSettledAt_max_witness :
  getLastInvoiceSettledAt db_mixed = Ok 300 db_mixed
  ∧ ∃ w, getLastInvoiceSettledAt db_mixed = Ok w db_mixed
         ∧ settled_at rec_settled < w.
Proof.
  split; [vm_compute; reflexivity|].
  destruct (getLastInvoiceSettledAt_max db_mixed) as (w & Hrun & _ & _ & _ & Hout).
  exists w. split; [exact Hrun|].
  refine (Hout 2 rec_paid_out _ _ _ 1 rec_settled _ _).
  - vm_compute. reflexivity.
  - discriminate.
  - intros id' r' Hr' Ho'.
    destruct (decide (id' = 1)) as [->|H1];
      [vm_compute in Hr'; injection Hr' as <-; vm_compute; reflexivity|].
    destruct (decide (id' = 2)) as [->|H2];
      [vm_compute in Hr'; injection Hr' as <-; discriminate|].
    exfalso. revert Hr'. unfold db_mixed. cbn [tables records].
    rewrite lookup_insert_ne, lookup_singleton_ne by done. discriminate.
  - vm_compute. reflexivity.
  - reflexivity.
Defined.

(** * Further properties of the ledger store *)

(** ** Row ids *)

Lemma max_rowid_bounds (m : gmap Z Rec) :
  0 <= max_rowid m ∧ ∀ k, is_Some (m !! k) → k <= max_rowid m.
Proof.
  unfold max_rowid.
  apply (map_fold_weak_ind
           (fun r (m : gmap Z Rec) => 0 <= r ∧ ∀ k, is_Some (m !! k) → k <= r)).
  - split; [lia|]. intros k [x Hx]. by rewrite lookup_empty in Hx.
  - intros i x m' r _ [H0 IH]. split; [lia|]. intros k Hk.
    destruct (decide (i = k)) as [->|Hne]; [lia|].
    rewrite lookup_insert_ne in Hk by done. specialize (IH k Hk). lia.
Qed.

Lemma next_rowid_fresh t :
  records t !! next_rowid t = None
  ∧ records_seq t < next_rowid t
  ∧ 0 < next_rowid t.
Proof.
  destruct (max_rowid_bounds (records t)) as [H0 Hmax]. unfold next_rowid.
  split; [|lia].
  destruct (records t !! _) as [r|] eqn:Hr; [|done].
  specialize (Hmax _ (mk_is_Some _ _ Hr)). lia.
Qed.

(** X1. [createInvoice] never fails and returns an id that was not in
    use and is larger than every id handed out before; the new record is
    an unpaid incoming record of the given key stamped with the current
    time, [getInvoiceById] finds it, and every other record, the wallets
    and the fee counters are as before. *)
Theorem createInvoice_fresh (now : Z) (clientKey : string) (db : DB) :
  ∃ id db',
    createInvoice now clientKey db = Ok id db'
    ∧ records (tables db) !! id = None
    ∧ records_seq (tables db) < id
    ∧ (∀ id' r, records (tables db) !! id' = Some r → id' < id)
    ∧ records_seq (tables db') = id
    ∧ records (tables db')
      = <[id := mkRec clientKey 0 0 "" "" "" "" None 0 now 0 0]> (records (tables db))
    ∧ wallets (tables db') = wallets (tables db)
    ∧ fees (tables db') = fees (tables db)
    ∧ saved db' = saved db
    ∧ getInvoiceById id db'
      = Ok (Some (mkInvoice (mkTransaction incoming None None None "" 0 0 now 0 0) "",
                  clientKey)) db'.
Proof.
  destruct (next_rowid_fresh (tables db)) as (Hfresh & Hseq & Hpos).
  eexists _, _. split; [reflexivity|]. cbn [tables saved records records_seq wallets fees].
  repeat split; try done.
  - intros id' r Hr. destruct (max_rowid_bounds (records (tables db))) as [_ Hmax].
    specialize (Hmax id' (mk_is_Some _ _ Hr)). unfold next_rowid. lia.
  - run_m. unfold select_invoice. cbn [tables records].
    by rewrite lookup_insert_eq.
Qed.

Lemma createInvoice_fresh_witness :
  ∃ id db',
    createInvoice 300 "bob" db_settled = Ok id db'
    ∧ 1 < id
    ∧ getInvoiceById id db'
      = Ok (Some (mkInvoice (mkTransaction incoming None None None "" 0 0 300 0 0) "",
                  "bob")) db'.
Proof.
  destruct (createInvoice_fresh 300 "bob" db_settled)
    as (id & db' & Hrun & _ & _ & Hnew & _ & _ & _ & _ & _ & Hget).
  exists id, db'. split; [exact Hrun|]. split; [|exact Hget].
  apply (Hnew 1 rec_settled). reflexivity.
Defined.

(** ** [completeInvoice] and [getInvoiceById] *)

(** X2. [completeInvoice] on an id that is not in the store fails with
    the not-found error and changes nothing. *)
Theorem completeInvoice_not_found (id : Z) (invoice : Invoice) (db : DB) :
  records (tables db) !! id = None →
  completeInvoice id invoice db = Throw "Invoice not found by id" db.
Proof.
  intros Hr. destruct db as [t sv]. cbn in Hr. run_m.
  unfold complete_invoice_stmt. by rewrite Hr.
Qed.

Lemma completeInvoice_not_found_witness :
  completeInvoice 7 sample_invoice db_invoice
  = Throw "Invoice not found by id" db_invoice.
Proof. apply completeInvoice_not_found. vm_compute. reflexivity. Defined.

(** X3. [getInvoiceById] never fails and never changes the store; it
    answers exactly for the ids of incoming records, with the owning key
    of the record, and hides outgoing records. *)
Theorem getInvoiceById_incoming_only (id : Z) (db : DB) :
  ∃ res,
    getInvoiceById id db = Ok res db
    ∧ (∀ r, records (tables db) !! id = Some r → is_outgoing r = 0 →
            res = Some (mkInvoice (recToTx r) "", pubkey r)
            ∧ tx_type (recToTx r) = incoming)
    ∧ (∀ r, records (tables db) !! id = Some r → is_outgoing r ≠ 0 → res = None)
    ∧ (records (tables db) !! id = None → res = None).
Proof.
  run_m. unfold select_invoice.
  destruct (records (tables db) !! id) as [r|] eqn:Hr.
  - destruct (Z.eqb_spec (is_outgoing r) 0) as [Ho|Ho].
    + cbn. rewrite Ho. cbn. eexists. split; [reflexivity|].
      repeat split; intros; simplify_eq; try done.
      unfold recToTx. cbn. by rewrite Ho.
    + eexists. split; [reflexivity|]. repeat split; intros; by simplify_eq.
  - eexists. split; [reflexivity|]. repeat split; intros; by simplify_eq.
Qed.

Lemma getInvoiceById_incoming_only_witness :
  getInvoiceById 1 db_payment = Ok None db_payment
  ∧ getInvoiceById 5 db_payment = Ok None db_payment
  ∧ getInvoiceById 1 db_invoice
    = Ok (Some (mkInvoice (recToTx rec_invoice) "", "alice")) db_invoice.
Proof.
  split; [|split].
  - destruct (getInvoiceById_incoming_only 1 db_payment) as (res & Hrun & _ & Hout & _).
    rewrite Hrun. f_equal. apply (Hout rec_payment); [reflexivity|discriminate].
  - destruct (getInvoiceById_incoming_only 5 db_payment) as (res & Hrun & _ & _ & Hnone).
    rewrite Hrun. f_equal. apply Hnone. reflexivity.
  - destruct (getInvoiceById_incoming_only 1 db_invoice) as (res & Hrun & Hin & _ & _).
    rewrite Hrun. f_equal. apply (Hin rec_invoice); reflexivity.
Defined.

(** X4. What [completeInvoice] wrote is what [getInvoiceById] reads
    back: payment hash, amount, created-at and expiry of the invoice, and
    its description and description hash with the empty string and
    [undefined] identified; the owning key is that of the record. *)
Theorem completeInvoice_then_get (id : Z) (invoice : Invoice) (db : DB) (r : Rec) :
  records (tables db) !! id = Some r →
  is_outgoing r = 0 →
  ∃ db' tx,
    completeInvoice id invoice db = Ok tt db'
    ∧ getInvoiceById id db' = Ok (Some (mkInvoice tx "", pubkey r)) db'
    ∧ tx_payment_hash tx = tx_payment_hash (inv_tx invoice)
    ∧ tx_amount tx = tx_amount (inv_tx invoice)
    ∧ tx_created_at tx = tx_created_at (inv_tx invoice)
    ∧ tx_expires_at tx = tx_expires_at (inv_tx invoice)
    ∧ tx_description tx = nonempty (or_empty (tx_description (inv_tx invoice)))
    ∧ tx_description_hash tx
      = nonempty (or_empty (tx_description_hash (inv_tx invoice)))
    ∧ tx_settled_at tx = settled_at r.
Proof.
  intros Hr Ho. destruct db as [t sv]. cbn in Hr.
  exists (mkDB (set_records <[id := complete_row invoice r]> t) sv),
         (recToTx (complete_row invoice r)).
  split.
  { run_m. unfold complete_invoice_stmt. by rewrite Hr. }
  split; [|done].
  run_m. unfold select_invoice. cbn [tables records set_records].
  rewrite lookup_insert_eq. cbn [complete_row is_outgoing]. rewrite Ho. cbn.
  by rewrite Ho.
Qed.

Lemma completeInvoice_then_get_witness :
  ∃ db' tx,
    completeInvoice 1 sample_invoice db_invoice = Ok tt db'
    ∧ getInvoiceById 1 db' = Ok (Some (mkInvoice tx "", "alice")) db'
    ∧ tx_description tx = Some "coffee"
    ∧ tx_description_hash tx = None.
Proof.
  destruct (completeInvoice_then_get 1 sample_invoice db_invoice rec_invoice)
    as (db' & tx & Hc & Hg & _ & _ & _ & _ & Hd & Hdh & _); try reflexivity.
  exists db', tx. repeat split; [exact Hc | exact Hg | exact Hd | exact Hdh].
Defined.

(** X19. An invoice record that is created and then deleted leaves no
    trace but the id counter: the records, wallets and fee counters are
    as before and the id no longer resolves. *)
Theorem createInvoice_then_deleteInvoice (now : Z) (clientKey : string) (db : DB) :
  ∃ id db1 db2,
    createInvoice now clientKey db = Ok id db1
    ∧ deleteInvoice id db1 = Ok tt db2
    ∧ records (tables db2) = records (tables db)
    ∧ wallets (tables db2) = wallets (tables db)
    ∧ fees (tables db2) = fees (tables db)
    ∧ getInvoiceById id db2 = Ok None db2.
Proof.
  destruct (next_rowid_fresh (tables db)) as (Hfresh & _).
  eexists _, _, _. split; [reflexivity|]. split.
  { run_m. unfold delete_invoice_stmt. cbn [tables records].
    rewrite lookup_insert_eq. cbn. reflexivity. }
  cbn [tables records wallets fees set_records].
  rewrite delete_insert_eq, delete_id by done. repeat split.
  run_m. unfold select_invoice. cbn [tables records set_records].
  by rewrite lookup_delete_eq.
Qed.

(** ** Payments *)

Lemma is_payment_true k h r :
  is_payment k h r = true ↔ pubkey r = k ∧ payment_hash r = h.
Proof.
  unfold is_payment. rewrite andb_true_iff, !String.eqb_eq. done.
Qed.

(** X5. [deletePayment] never fails; it removes every record of the key
    with the payment hash, paid or not, incoming or outgoing, and leaves
    every other record, the wallets and the fee counters alone. *)
Theorem deletePayment_removes_matching (clientKey paymentHash : string) (db : DB) :
  ∃ db',
    deletePayment clientKey paymentHash db = Ok tt db'
    ∧ (∀ id r, records (tables db) !! id = Some r →
               pubkey r = clientKey → payment_hash r = paymentHash →
               records (tables db') !! id = None)
    ∧ (∀ id r, records (tables db) !! id = Some r →
               pubkey r ≠ clientKey ∨ payment_hash r ≠ paymentHash →
               records (tables db') !! id = Some r)
    ∧ (∀ id, records (tables db) !! id = None → records (tables db') !! id = None)
    ∧ wallets (tables db') = wallets (tables db)
    ∧ fees (tables db') = fees (tables db)
    ∧ saved db' = saved db.
Proof.
  eexists. split; [reflexivity|]. cbn [tables saved records wallets fees set_records].
  repeat split.
  - intros id r Hr Hk Hh. apply map_lookup_filter_None. right. intros r' Hr'.
    simplify_eq. cbn. rewrite (proj2 (is_payment_true _ _ _)); done.
  - intros id r Hr Hne. apply map_lookup_filter_Some. split; [done|]. cbn.
    destruct (is_payment clientKey paymentHash r) eqn:E; [|done].
    apply is_payment_true in E. destruct E, Hne; done.
  - intros id Hr. apply map_lookup_filter_None. by left.
Qed.

Lemma deletePayment_removes_matching_witness :
  ∃ db',
    deletePayment "alice" "h2" db_settled = Ok tt db'
    ∧ is_outgoing rec_settled = 0
    ∧ is_paid rec_settled = 1
    ∧ records (tables db') !! 1 = None.
Proof.
  destruct (deletePayment_removes_matching "alice" "h2" db_settled)
    as (db' & Hrun & Hdel & _).
  exists db'. repeat split; [exact Hrun|].
  apply (Hdel 1 rec_settled); reflexivity.
Defined.

(** X6. A payment record that [createPayment] inserted is taken out
    again by [deletePayment] with the same key and payment hash: when no
    record of the key had that hash before, the records, wallets and fee
    counters are back to what they were, and only the id counter has
    moved on. *)
Theorem createPayment_then_deletePayment (now : Z) (clientKey : string)
    (invoice : Invoice) (db : DB) :
  (∀ id r, records (tables db) !! id = Some r →
           is_payment clientKey (tx_payment_hash (inv_tx invoice)) r = false) →
  ∃ db1 db2,
    createPayment now clientKey invoice db = Ok tt db1
    ∧ deletePayment clientKey (tx_payment_hash (inv_tx invoice)) db1 = Ok tt db2
    ∧ records (tables db2) = records (tables db)
    ∧ wallets (tables db2) = wallets (tables db)
    ∧ fees (tables db2) = fees (tables db)
    ∧ records_seq (tables db) < records_seq (tables db2).
Proof.
  intros Hnone. destruct (next_rowid_fresh (tables db)) as (Hfresh & Hseq & _).
  eexists _, _. split; [reflexivity|]. split; [reflexivity|].
  cbn [tables saved records wallets fees records_seq set_records].
  repeat split; [|done].
  apply map_eq. intros id.
  destruct (decide (id = next_rowid (tables db))) as [->|Hne].
  - rewrite Hfresh. apply map_lookup_filter_None. right. intros r Hr.
    rewrite lookup_insert_eq in Hr. simplify_eq. cbn.
    unfold is_payment. cbn. by rewrite !String.eqb_refl.
  - destruct (records (tables db) !! id) as [r|] eqn:Hr.
    + apply map_lookup_filter_Some. rewrite lookup_insert_ne by done.
      split; [done|]. cbn. by apply (Hnone id).
    + apply map_lookup_filter_None. left. by rewrite lookup_insert_ne.
Qed.

Lemma createPayment_then_deletePayment_witness :
  ∃ db1 db2,
    createPayment 500 "alice" sample_invoice db_invoice = Ok tt db1
    ∧ deletePayment "alice" "h9" db1 = Ok tt db2
    ∧ records (tables db2) = records (tables db_invoice).
Proof.
  destruct (createPayment_then_deletePayment 500 "alice" sample_invoice db_invoice)
    as (db1 & db2 & H1 & H2 & Hrec & _).
  - intros id r Hr. destruct (decide (id = 1)) as [->|Hne].
    + vm_compute in Hr. injection Hr as <-. reflexivity.
    + unfold db_invoice in Hr. cbn [tables records] in Hr.
      rewrite lookup_singleton_ne in Hr by done. discriminate.
  - exists db1, db2. repeat split; [exact H1 | exact H2 | exact Hrec].
Defined.

Lemma is_unpaid_payment_paid k h f now r :
  is_unpaid_payment k h (pay_row f now r) = false.
Proof. unfold is_unpaid_payment. cbn. apply andb_false_r. Qed.

Lemma filter_unpaid_unique (m : gmap Z Rec) k h id r :
  m !! id = Some r →
  is_unpaid_payment k h r = true →
  (∀ id' r', id' ≠ id → m !! id' = Some r' → is_unpaid_payment k h r' = false) →
  filter (fun kr : Z * Rec => is_unpaid_payment k h kr.2 = true) m = {[id := r]}.
Proof.
  intros Hr Hm Hothers. apply map_eq. intros i.
  destruct (decide (i = id)) as [->|Hne].
  - rewrite lookup_singleton_eq. by apply map_lookup_filter_Some.
  - rewrite lookup_singleton_ne by done. apply map_lookup_filter_None.
    destruct (m !! i) as [r'|] eqn:Hi; [right|by left].
    intros r'' ?. simplify_eq. cbn. by rewrite (Hothers i r'').
Qed.

Lemma filter_unpaid_none (m : gmap Z Rec) k h :
  (∀ id r, m !! id = Some r → is_unpaid_payment k h r = false) →
  filter (fun kr : Z * Rec => is_unpaid_payment k h kr.2 = true) m = ∅.
Proof.
  intros Hnone. apply map_eq. intros i. rewrite lookup_empty.
  apply map_lookup_filter_None.
  destruct (m !! i) as [r|] eqn:Hi; [right|by left].
  intros r' ?. simplify_eq. cbn. by rewrite (Hnone i r').
Qed.

Lemma fmap_pay_unique (m : gmap Z Rec) k h f now id r :
  m !! id = Some r →
  is_unpaid_payment k h r = true →
  (∀ id' r', id' ≠ id → m !! id' = Some r' → is_unpaid_payment k h r' = false) →
  (fun r => if is_unpaid_payment k h r then pay_row f now r else r) <$> m
  = <[id := pay_row f now r]> m.
Proof.
  intros Hr Hm Hothers. apply map_eq. intros i. rewrite lookup_fmap.
  destruct (decide (i = id)) as [->|Hne].
  - rewrite lookup_insert_eq, Hr. cbn. by rewrite Hm.
  - rewrite lookup_insert_ne by done.
    destruct (m !! i) as [r'|] eqn:Hi; [|done]. cbn.
    by rewrite (Hothers i r').
Qed.

Lemma settlePayment_not_found now k h f w t :
  (∀ id r, records t !! id = Some r → is_unpaid_payment k h r = false) →
  settlePayment now k h f w (mkDB t None)
  = Throw "Payment not found by paymentHash" (mkDB t None).
Proof.
  intros Hnone. run_m. unfold settle_payment_stmt. cbn [tables saved].
  by rewrite filter_unpaid_none, map_size_empty.
Qed.

(** X7. When exactly one unpaid record of the key has the payment hash,
    [settlePayment] succeeds: that record is paid, with the given fees
    and the current time as settled-at, the wallet of the key is upserted,
    every other record and the fee counters are as before.  Any later
    [settlePayment] for the key and hash fails with the not-found error
    and changes nothing. *)
Theorem settlePayment_once (now : Z) (clientKey paymentHash : string)
    (feesPaid : Z) (next : WalletState) (db : DB) (id : Z) (r : Rec) :
  saved db = None →
  records (tables db) !! id = Some r →
  is_unpaid_payment clientKey paymentHash r = true →
  (∀ id' r', id' ≠ id → records (tables db) !! id' = Some r' →
             is_unpaid_payment clientKey paymentHash r' = false) →
  ∃ db1 r1,
    settlePayment now clientKey paymentHash feesPaid next db = Ok tt db1
    ∧ saved db1 = None
    ∧ records (tables db1) = <[id := r1]> (records (tables db))
    ∧ r1 = pay_row feesPaid now r
    ∧ is_paid r1 = 1 ∧ fees_paid r1 = feesPaid ∧ settled_at r1 = now
    ∧ wallets (tables db1) = <[clientKey := next]> (wallets (tables db))
    ∧ fees (tables db1) = fees (tables db)
    ∧ ∀ now' feesPaid' next',
        settlePayment now' clientKey paymentHash feesPaid' next' db1
        = Throw "Payment not found by paymentHash" db1.
Proof.
  intros Hs Hr Hm Hothers. destruct db as [t sv]. cbn in Hs, Hr, Hothers. subst sv.
  exists (mkDB (set_wallets <[clientKey := next]>
                  (set_records <[id := pay_row feesPaid now r]> t)) None),
         (pay_row feesPaid now r).
  split.
  { run_m. unfold settle_payment_stmt, upsert_wallet. cbn [tables saved].
    rewrite (filter_unpaid_unique _ _ _ id r), map_size_singleton by done.
    unfold set_records. by rewrite (fmap_pay_unique _ _ _ _ _ id r). }
  cbn [tables saved records wallets fees set_wallets set_records].
  repeat split.
  intros now' feesPaid' next'. apply settlePayment_not_found.
  cbn [records set_wallets set_records]. intros id' r' Hr'.
  destruct (decide (id' = id)) as [->|Hne].
  - rewrite lookup_insert_eq in Hr'. simplify_eq. apply is_unpaid_payment_paid.
  - rewrite lookup_insert_ne in Hr' by done. by apply (Hothers id').
Qed.

Lemma settlePayment_once_witness :
  ∃ db1,
    settlePayment 900 "alice" "h1" 4 sample_wallet db_payment = Ok tt db1
    ∧ wallets (tables db1) = {["alice" := sample_wallet]}
    ∧ settlePayment 950 "alice" "h1" 4 sample_wallet db1
      = Throw "Payment not found by paymentHash" db1.
Proof.
  destruct (settlePayment_once 900 "alice" "h1" 4 sample_wallet db_payment 1
              rec_payment)
    as (db1 & r1 & Hrun & _ & _ & _ & _ & _ & _ & Hw & _ & Hdup); try reflexivity.
  - intros id' r' Hne Hr'. unfold db_payment in Hr'. cbn [tables records] in Hr'.
    rewrite lookup_singleton_ne in Hr' by done. discriminate.
  - exists db1. repeat split; [exact Hrun | exact Hw | apply Hdup].
Defined.

(** ** What every store call keeps *)

(** The outcomes of [settleInvoice], with the state of the row it
    settled. *)
Lemma settleInvoice_settles_unpaid clientKey id settledAt next fee db :
  state_of (settleInvoice clientKey id settledAt next fee db) = db
  ∨ ∃ r, records (tables db) !! id = Some r
         ∧ is_paid r = 0
         ∧ saved db = None
         ∧ state_of (settleInvoice clientKey id settledAt next fee db)
           = mkDB (settled_tables clientKey id settledAt next fee r (tables db)) None.
Proof.
  destruct db as [t [t0|]]; [by left|].
  destruct (records t !! id) as [r|] eqn:Hr.
  - destruct (decide (is_outgoing r = 0)) as [Ho|Ho].
    + destruct (decide (pubkey r = clientKey)) as [Hk|Hk].
      * destruct (decide (is_paid r = 0)) as [Hp|Hp].
        -- right. exists r. repeat split; try done.
           by rewrite (settleInvoice_unpaid _ _ r).
        -- left. by rewrite (settleInvoice_paid _ _ r).
      * left. rewrite settleInvoice_foreign; [done|]. intros r' ?. by simplify_eq.
    + left. rewrite settleInvoice_foreign; [done|]. intros r' ?. by simplify_eq.
  - left. rewrite settleInvoice_foreign; [done|]. intros r' ?. by simplify_eq.
Qed.

(** The outcomes of [settlePayment]. *)
Lemma settlePayment_outcomes now k h f w db :
  state_of (settlePayment now k h f w db) = db
  ∨ saved db = None
    ∧ state_of (settlePayment now k h f w db)
      = mkDB (set_wallets <[k := w]>
                (set_records
                   (fmap (fun r => if is_unpaid_payment k h r
                                   then pay_row f now r else r))
                   (tables db)))
             None.
Proof.
  destruct db as [t [t0|]]; [by left|].
  run_m. unfold settle_payment_stmt, upsert_wallet. cbn [tables saved].
  destruct (negb _); [by left|by right].
Qed.

Lemma kept_as_refl r : kept_as r r.
Proof. by repeat split. Qed.

Lemma run_op_kept (o : Op) (db : DB) (id : Z) (r r' : Rec) :
  records (tables db) !! id = Some r →
  records (tables (run_op o db)) !! id = Some r' →
  kept_as r r'.
Proof.
  intros Hr Hr'. destruct o; cbn [run_op] in Hr'.
  - cbn in Hr'. simplify_eq. apply kept_as_refl.
  - cbn in Hr'. destruct (next_rowid_fresh (tables db)) as (Hfresh & _).
    rewrite lookup_insert_ne in Hr' by congruence.
    simplify_eq. apply kept_as_refl.
  - revert Hr'. run_m. unfold delete_invoice_stmt.
    destruct (records (tables db) !! id0) as [r0|] eqn:Hr0; cbn;
      [destruct (is_outgoing r0 =? 0); cbn|]; intros Hr'.
    + apply lookup_delete_Some in Hr' as [_ Hr']. simplify_eq. apply kept_as_refl.
    + simplify_eq. apply kept_as_refl.
    + simplify_eq. apply kept_as_refl.
  - revert Hr'. run_m. unfold complete_invoice_stmt.
    destruct (records (tables db) !! id0) as [r0|] eqn:Hr0; cbn; intros Hr'.
    + destruct (decide (id0 = id)) as [->|Hne].
      * rewrite lookup_insert_eq in Hr'. simplify_eq. by repeat split.
      * rewrite lookup_insert_ne in Hr' by done. simplify_eq. apply kept_as_refl.
    + simplify_eq. apply kept_as_refl.
  - destruct (settleInvoice_settles_unpaid clientPubkey id0 settledAt walletState
                miningFee db) as [Heq|(r0 & Hr0 & Hp & _ & Heq)];
      rewrite Heq in Hr'.
    + simplify_eq. apply kept_as_refl.
    + cbn in Hr'. destruct (decide (id0 = id)) as [->|Hne].
      * rewrite lookup_insert_eq in Hr'. simplify_eq. by repeat split.
      * rewrite lookup_insert_ne in Hr' by done. simplify_eq. apply kept_as_refl.
  - cbn in Hr'. destruct (next_rowid_fresh (tables db)) as (Hfresh & _).
    rewrite lookup_insert_ne in Hr' by congruence.
    simplify_eq. apply kept_as_refl.
  - cbn in Hr'. apply map_lookup_filter_Some in Hr' as [Hr' _].
    simplify_eq. apply kept_as_refl.
  - destruct (settlePayment_outcomes now clientPubkey paymentHash feesPaid
                walletState db) as [Heq|[_ Heq]]; rewrite Heq in Hr'.
    + simplify_eq. apply kept_as_refl.
    + cbn in Hr'. rewrite lookup_fmap, Hr in Hr'. cbn in Hr'.
      unfold is_unpaid_payment in Hr'.
      destruct (is_payment clientPubkey paymentHash r); cbn in Hr';
        [|simplify_eq; apply kept_as_refl].
      destruct (Z.eqb_spec (is_paid r) 0); simplify_eq;
        [by repeat split|apply kept_as_refl].
Qed.

(** X8. No store call rewrites history: a record that is still in the
    store after a call has the owning key, the direction and the (never
    written) preimage it had before, and once it is paid its paid flag,
    settled-at and fees paid never change again. *)
Theorem paid_record_immutable (o : Op) (db : DB) (id : Z) (r r' : Rec) :
  records (tables db) !! id = Some r →
  records (tables (run_op o db)) !! id = Some r' →
  pubkey r' = pubkey r
  ∧ is_outgoing r' = is_outgoing r
  ∧ preimage r' = preimage r
  ∧ (is_paid r ≠ 0 →
     is_paid r' = is_paid r
     ∧ settled_at r' = settled_at r
     ∧ fees_paid r' = fees_paid r).
Proof. apply run_op_kept. Qed.

Lemma paid_record_immutable_witness :
  ∃ r',
    records (tables (run_op (OpCompleteInvoice 1 sample_invoice) db_settled)) !! 1
    = Some r'
    ∧ pubkey r' = "alice"
    ∧ is_paid r' = 1
    ∧ settled_at r' = 150.
Proof.
  exists (complete_row sample_invoice rec_settled). split; [reflexivity|].
  destruct (paid_record_immutable (OpCompleteInvoice 1 sample_invoice) db_settled 1
              rec_settled (complete_row sample_invoice rec_settled)
              eq_refl eq_refl)
    as (Hk & _ & _ & Hpaid).
  destruct (Hpaid ltac:(discriminate)) as (Hp & Hs & _).
  split; [exact Hk|]. split; [exact Hp | exact Hs].
Defined.

(** X9. A store call leaves the connection in the transaction state it
    found it in: a call started outside a transaction commits or rolls
    back before it returns or throws. *)
Theorem run_op_closes_transaction (o : Op) (db : DB) :
  saved (run_op o db) = saved db.
Proof.
  destruct o; cbn [run_op]; try reflexivity.
  - run_m. unfold delete_invoice_stmt.
    destruct (records (tables db) !! id) as [r|]; [|done].
    by destruct (is_outgoing r =? 0).
  - run_m. unfold complete_invoice_stmt.
    by destruct (records (tables db) !! id).
  - destruct (settleInvoice_settles_unpaid clientPubkey id settledAt walletState
                miningFee db) as [->|(r & _ & _ & Hs & ->)]; [done|by rewrite Hs].
  - destruct (settlePayment_outcomes now clientPubkey paymentHash feesPaid
                walletState db) as [->|[Hs ->]]; [done|by rewrite Hs].
Qed.

Lemma run_op_seq (o : Op) (db : DB) :
  records_seq (tables db) <= records_seq (tables (run_op o db)).
Proof.
  destruct o; cbn [run_op].
  - cbn. lia.
  - cbn. destruct (next_rowid_fresh (tables db)) as (_ & H & _). lia.
  - run_m. unfold delete_invoice_stmt.
    destruct (records (tables db) !! id) as [r|]; cbn; [|lia].
    destruct (is_outgoing r =? 0); cbn; lia.
  - run_m. unfold complete_invoice_stmt.
    destruct (records (tables db) !! id); cbn; lia.
  - destruct (settleInvoice_settles_unpaid clientPubkey id settledAt walletState
                miningFee db) as [->|(r & _ & _ & _ & ->)]; cbn; lia.
  - cbn. destruct (next_rowid_fresh (tables db)) as (_ & H & _). lia.
  - cbn. lia.
  - destruct (settlePayment_outcomes now clientPubkey paymentHash feesPaid
                walletState db) as [->|[_ ->]]; cbn; lia.
Qed.

Lemma run_ops_seq (ops : list Op) (db : DB) :
  records_seq (tables db) <= records_seq (tables (run_ops ops db)).
Proof.
  revert db. induction ops as [|o ops IH]; intros db; [cbn; lia|].
  change (run_ops (o :: ops) db) with (run_ops ops (run_op o db)).
  pose proof (run_op_seq o db). specialize (IH (run_op o db)). lia.
Qed.

(** X10. Record ids are never reused: whatever store calls run in
    between, deletions included, a later [createInvoice] returns a larger
    id than an earlier one. *)
Theorem createInvoice_ids_increase (now1 now2 : Z) (k1 k2 : string)
    (ops : list Op) (db : DB) :
  ∃ id1 db1 id2 db2,
    createInvoice now1 k1 db = Ok id1 db1
    ∧ createInvoice now2 k2 (run_ops ops db1) = Ok id2 db2
    ∧ id1 < id2.
Proof.
  eexists _, _, _, _. split; [reflexivity|]. split; [reflexivity|].
  cbn [tables].
  set (db1 := mkDB _ _).
  pose proof (run_ops_seq ops db1) as Hseq.
  destruct (next_rowid_fresh (tables (run_ops ops db1))) as (_ & Hlt & _).
  subst db1. cbn [tables records_seq] in Hseq. lia.
Qed.

(** X11. A store call writes at most the wallet of the key it is made
    for: the wallet of every other key is as before, and calls that are
    not settlements write no wallet at all. *)
Theorem run_op_other_wallets (o : Op) (db : DB) (k : string) :
  op_client o ≠ Some k →
  wallets (tables (run_op o db)) !! k = wallets (tables db) !! k.
Proof.
  intros Hk. destruct o; cbn [run_op op_client] in *; try reflexivity.
  - run_m. unfold delete_invoice_stmt.
    destruct (records (tables db) !! id) as [r|]; [|done].
    by destruct (is_outgoing r =? 0).
  - run_m. unfold complete_invoice_stmt.
    by destruct (records (tables db) !! id).
  - destruct (settleInvoice_settles_unpaid clientPubkey id settledAt walletState
                miningFee db) as [->|(r & _ & _ & _ & ->)]; [done|].
    cbn. rewrite lookup_insert_ne; [done|congruence].
  - destruct (settlePayment_outcomes now clientPubkey paymentHash feesPaid
                walletState db) as [->|[_ ->]]; [done|].
    cbn. rewrite lookup_insert_ne; [done|congruence].
Qed.

Lemma run_op_other_wallets_witness :
  wallets (tables (run_op (OpSettleInvoice "bob" 1 150 sample_wallet 0) db_settled))
    !! "alice"
  = Some sample_wallet.
Proof.
  rewrite (run_op_other_wallets (OpSettleInvoice "bob" 1 150 sample_wallet 0)
             db_settled "alice"); [reflexivity|discriminate].
Defined.

(** X12. A successful [settleInvoice] moves the backfill watermark to at
    least the settled-at it wrote, and to exactly that value when no
    record was settled later. *)
Theorem settleInvoice_advances_watermark (db : DB) (id : Z) (r : Rec)
    (clientKey : string) (settledAt : Z) (next : WalletState) (fee : Z) :
  saved db = None →
  records (tables db) !! id = Some r →
  is_outgoing r = 0 → is_paid r = 0 → pubkey r = clientKey →
  ∃ db1 w,
    settleInvoice clientKey id settledAt next fee db = Ok true db1
    ∧ getLastInvoiceSettledAt db1 = Ok w db1
    ∧ settledAt <= w
    ∧ ((∀ id' r', records (tables db) !! id' = Some r' →
                  settled_at r' <= settledAt) →
       w = settledAt).
Proof.
  intros Hs Hr Ho Hp Hk. destruct db as [t sv]. cbn in Hs, Hr. subst sv.
  eexists _, _. split; [by apply (settleInvoice_unpaid t id r)|].
  split; [reflexivity|].
  unfold select_last_settled. cbn [tables records settled_tables set_wallets
    set_fees set_records].
  pose proof (head_later_first
    (settled_at <$> (map_to_list (<[id:=settle_row settledAt r]> (records t))).*2))
    as Hhead.
  assert (Hin : settledAt ∈ settled_at <$>
            (map_to_list (<[id:=settle_row settledAt r]> (records t))).*2).
  { apply elem_of_settled_at. exists id, (settle_row settledAt r).
    by rewrite lookup_insert_eq. }
  destruct (head _) as [m|]; cbn [or0].
  - destruct Hhead as [Hm Hmax]. split; [by apply Hmax|].
    intros Hold. apply elem_of_settled_at in Hm as (id' & r' & Hr' & <-).
    specialize (Hmax _ Hin).
    destruct (decide (id' = id)) as [->|Hne].
    + rewrite lookup_insert_eq in Hr'. by simplify_eq.
    + rewrite lookup_insert_ne in Hr' by done. specialize (Hold _ _ Hr'). lia.
  - rewrite Hhead in Hin. by apply elem_of_nil in Hin.
Qed.

Lemma settleInvoice_advances_watermark_witness :
  ∃ db1,
    settleInvoice "alice" 1 150 sample_wallet 7 db_invoice = Ok true db1
    ∧ getLastInvoiceSettledAt db1 = Ok 150 db1.
Proof.
  destruct (settleInvoice_advances_watermark db_invoice 1 rec_invoice "alice" 150
              sample_wallet 7)
    as (db1 & w & Hrun & Hw & _ & Hexact); try reflexivity.
  exists db1. split; [exact Hrun|].
  rewrite Hw. f_equal. apply Hexact.
  intros id' r' Hr'. destruct (decide (id' = 1)) as [->|Hne].
  - vm_compute in Hr'. injection Hr' as <-. vm_compute. discriminate.
  - unfold db_invoice in Hr'. cbn [tables records] in Hr'.
    rewrite lookup_singleton_ne in Hr' by done. discriminate.
Defined.

End LedgerFacts.

(** * Properties of the incoming-payment queue *)

Module QueueFacts.
Import Phoenixd.

(** The run started by [after_entry] and by an enqueue into an empty
    queue: none on an empty queue. *)
Lemma after_entry_eq p q sp tr :
  after_entry (mkSt (p :: q) sp tr)
  = match q with
    | [] => mkSt [] None tr
    | _ :: _ => processIncomingPayments (mkSt q None tr)
    end.
Proof. unfold after_entry. cbn. by destruct q. Qed.

Lemma schedule_nonempty p s :
  incomingPaymentQueue s ≠ [] → scheduleIncomingPayment p s = push p s.
Proof.
  intros Hq. unfold scheduleIncomingPayment. cbn.
  by destruct (incomingPaymentQueue s) as [|p0 [|p1 q]].
Qed.

Lemma schedule_empty p s :
  incomingPaymentQueue s = [] →
  scheduleIncomingPayment p s = processIncomingPayments (push p s).
Proof. intros Hq. unfold scheduleIncomingPayment. cbn. by rewrite Hq. Qed.

(** A run on a non-empty queue stops at the first [await] of its front
    entry. *)
Lemma process_in_progress p q tr :
  ∃ a c,
    processIncomingPayments (mkSt (p :: q) None tr)
    = mkSt (p :: q) (Some (a, p)) (tr ++ [Begin c])
    ∧ in_progress p (Some (a, p)) [Begin c].
Proof.
  unfold processIncomingPayments. cbn.
  destruct (Z.eqb_spec (fees p) 0) as [Hf|Hf].
  - exists AwaitIncomingPayment, (call_payment p). split; [done|by constructor].
  - exists AwaitLiquidityFee, (call_fee p). split; [done|by constructor].
Qed.

Lemma sequential_drained all done t q :
  all = (done ++ q)%list → sequential done t →
  drained_in_order all
    (match q with
     | [] => mkSt [] None t
     | _ :: _ => processIncomingPayments (mkSt q None t)
     end).
Proof.
  intros -> Hseq. destruct q as [|p q].
  - exists done, t, []. cbn. by rewrite !app_nil_r.
  - destruct (process_in_progress p q t) as (a & c & -> & Hin).
    by exists done, t, [Begin c].
Qed.

Lemma drained_schedule all s p :
  drained_in_order all s →
  drained_in_order (all ++ [p]) (scheduleIncomingPayment p s).
Proof.
  intros (done & t & cur & -> & Ht & Hseq & Hfront).
  destruct s as [q sp tr]. unfold front_in_progress in Hfront. cbn in *.
  destruct q as [|p0 q].
  - destruct Hfront as [-> ->]. rewrite app_nil_r in Ht. subst tr.
    rewrite schedule_empty by done. rewrite app_nil_r.
    by apply (sequential_drained _ done t [p]).
  - rewrite schedule_nonempty by done.
    exists done, t, cur. cbn. by rewrite <- app_assoc.
Qed.

Lemma drained_resume all s ok :
  drained_in_order all s → drained_in_order all (resume ok s).
Proof.
  intros (done & t & cur & -> & Ht & Hseq & Hfront).
  destruct s as [q sp tr]. unfold front_in_progress in Hfront. cbn in *.
  subst tr. destruct q as [|p q].
  - destruct Hfront as [-> ->]. exists done, t, []. by cbn.
  - unfold resume. destruct Hfront as [Hf|Hf|Hf]; cbn [suspended].
    + destruct ok.
      * exists done, t, [Begin (call_fee p); End (call_fee p) true;
                         Begin (call_payment p)].
        cbn. rewrite <- !app_assoc. repeat split; [done|by constructor].
      * unfold log. cbn [incomingPaymentQueue suspended trace].
        rewrite after_entry_eq, <- app_assoc.
        apply (sequential_drained _ (done ++ [p])); [by rewrite <- app_assoc|].
        constructor; [done|by constructor].
    + unfold log. cbn [incomingPaymentQueue suspended trace].
      rewrite after_entry_eq, <- app_assoc.
      apply (sequential_drained _ (done ++ [p])); [by rewrite <- app_assoc|].
      constructor; [done|]. cbn. by constructor.
    + unfold log. cbn [incomingPaymentQueue suspended trace].
      rewrite after_entry_eq, <- app_assoc.
      apply (sequential_drained _ (done ++ [p])); [by rewrite <- app_assoc|].
      constructor; [done|]. cbn. by constructor.
Qed.

Lemma drained_schedule_all all s ps :
  drained_in_order all s →
  drained_in_order (all ++ ps)
    (foldl (fun s p => scheduleIncomingPayment p s) s ps).
Proof.
  revert all s. induction ps as [|p ps IH]; intros all s Hinv; cbn.
  - by rewrite app_nil_r.
  - replace (all ++ p :: ps)%list with ((all ++ [p]) ++ ps)%list
      by (by rewrite <- app_assoc).
    by apply IH, drained_schedule.
Qed.

Lemma drained_run inputs all s :
  drained_in_order all s →
  drained_in_order (all ++ enqueued inputs) (run_inputs inputs s).
Proof.
  revert all s. induction inputs as [|i inputs IH]; intros all s Hinv.
  - cbn. by rewrite app_nil_r.
  - unfold enqueued. rewrite bind_cons. fold (enqueued inputs).
    rewrite app_assoc. apply IH. destruct i as [p|ps|ok]; cbn [step].
    + by apply drained_schedule.
    + by apply drained_schedule_all.
    + rewrite app_nil_r. by apply drained_resume.
Qed.

Lemma enqueued_settled outcomes : enqueued (Settled <$> outcomes) = [].
Proof.
  induction outcomes as [|ok oks IH]; [done|].
  unfold enqueued in *. by rewrite fmap_cons, bind_cons.
Qed.

(** ** Backfill *)

Lemma process_cons p q tr :
  processIncomingPayments (mkSt (p :: q) None tr)
  = if fees p =? 0
    then mkSt (p :: q) (Some (AwaitIncomingPayment, p)) (tr ++ [Begin (call_payment p)])
    else mkSt (p :: q) (Some (AwaitLiquidityFee, p)) (tr ++ [Begin (call_fee p)]).
Proof. unfold processIncomingPayments. cbn. by destruct (fees p =? 0). Qed.

Lemma resume_fee_ok p q tr :
  resume true (mkSt (p :: q) (Some (AwaitLiquidityFee, p)) tr)
  = mkSt (p :: q) (Some (AwaitIncomingPayment, p))
         ((tr ++ [End (call_fee p) true]) ++ [Begin (call_payment p)]).
Proof. reflexivity. Qed.

Lemma resume_payment p q tr ok :
  resume ok (mkSt (p :: q) (Some (AwaitIncomingPayment, p)) tr)
  = match q with
    | [] => mkSt [] None (tr ++ [End (call_payment p) ok])
    | _ :: _ =>
        processIncomingPayments (mkSt q None (tr ++ [End (call_payment p) ok]))
    end.
Proof. unfold resume, log. cbn. apply after_entry_eq. Qed.

Lemma settle_all_idle n tr : settle_all n (mkSt [] None tr) = mkSt [] None tr.
Proof. induction n as [|n IH]; [done|]. cbn. apply IH. Qed.

Lemma payment_calls_app tr1 tr2 :
  payment_calls (tr1 ++ tr2) = (payment_calls tr1 ++ payment_calls tr2)%list.
Proof. apply bind_app. Qed.

(** With every callback resolving, two resumptions per entry empty the
    queue, and [onIncomingPayment] has been called once per entry, in
    queue order. *)
Lemma settle_all_drains q :
  ∀ tr n, (2 * length q ≤ n)%nat →
    ∃ tr',
      settle_all n (match q with
                    | [] => mkSt [] None tr
                    | _ :: _ => processIncomingPayments (mkSt q None tr)
                    end)
      = mkSt [] None tr'
      ∧ payment_calls tr' = (payment_calls tr ++ (payment_event <$> q))%list.
Proof.
  induction q as [|p q IH]; intros tr n Hn.
  - exists tr. rewrite settle_all_idle. by rewrite app_nil_r.
  - cbn [length] in Hn. rewrite process_cons.
    destruct (Z.eqb_spec (fees p) 0) as [Hf|Hf].
    + destruct n as [|n]; [lia|]. cbn [settle_all]. rewrite resume_payment.
      destruct (IH ((tr ++ [Begin (call_payment p)])
                    ++ [End (call_payment p) true])%list n ltac:(lia))
        as (tr' & Hrun & Hcalls).
      exists tr'. split; [exact Hrun|].
      rewrite Hcalls, !payment_calls_app, fmap_cons. cbn.
      by rewrite app_nil_r, <- app_assoc.
    + destruct n as [|[|n]]; [lia|lia|]. cbn [settle_all].
      rewrite resume_fee_ok, resume_payment.
      destruct (IH ((((tr ++ [Begin (call_fee p)]) ++ [End (call_fee p) true])
                     ++ [Begin (call_payment p)])
                    ++ [End (call_payment p) true])%list n ltac:(lia))
        as (tr' & Hrun & Hcalls).
      exists tr'. split; [exact Hrun|].
      rewrite Hcalls, !payment_calls_app, fmap_cons. cbn.
      by rewrite !app_nil_r, <- app_assoc.
Qed.

Lemma schedule_all_nonempty ps :
  ∀ s, incomingPaymentQueue s ≠ [] →
    foldl (fun s p => scheduleIncomingPayment p s) s ps
    = mkSt (incomingPaymentQueue s ++ ps) (suspended s) (trace s).
Proof.
  induction ps as [|p ps IH]; intros s Hq; cbn [foldl].
  - rewrite app_nil_r. by destruct s.
  - rewrite schedule_nonempty by done. rewrite IH.
    + cbn. by rewrite <- app_assoc.
    + cbn. by destruct (incomingPaymentQueue s).
Qed.

(** Enqueuing a list into an idle adapter starts one run, on its first
    element. *)
Lemma schedule_all_idle ps tr :
  foldl (fun s p => scheduleIncomingPayment p s) (mkSt [] None tr) ps
  = match ps with
    | [] => mkSt [] None tr
    | _ :: _ => processIncomingPayments (mkSt ps None tr)
    end.
Proof.
  destruct ps as [|p ps]; [done|]. cbn [foldl].
  rewrite schedule_empty by done.
  rewrite schedule_all_nonempty.
  - unfold push, processIncomingPayments. cbn. by destruct (fees p =? 0).
  - unfold push, processIncomingPayments. cbn. by destruct (fees p =? 0).
Qed.

Lemma round_seconds_mono a b : a <= b → round_seconds a <= round_seconds b.
Proof. intros H. unfold round_seconds. apply Z.div_le_mono; lia. Qed.

Lemma reverse_chronological (ps : list IncomingPayment) :
  StronglySorted newest_first ps →
  StronglySorted chronological (payment_event <$> reverse ps).
Proof.
  induction 1 as [|p ps Hs IH Hall]; [constructor|].
  rewrite reverse_cons, fmap_app. apply StronglySorted_app_2; [|done|].
  - intros e1 e2 He1 He2. apply list_elem_of_fmap in He1 as (p1 & -> & Hp1).
    apply list_elem_of_singleton in He2 as ->.
    rewrite elem_of_reverse in Hp1. rewrite Forall_forall in Hall.
    apply round_seconds_mono, Hall, Hp1.
  - repeat constructor.
Qed.

(** C6, as stated, fails: the list P3, P1, P2 is served in the order P2,
    P1, P3. *)
Lemma syncPaymentsSince_not_chronological :
  payment_calls (trace (settle_all 6 (syncPaymentsSince node_unsorted 0 init)))
  = payment_event <$> [P2; P1; P3]
  ∧ payment_calls (trace (settle_all 6 (syncPaymentsSince node_unsorted 0 init)))
    ≠ payment_event <$> [P1; P2; P3].
Proof. split; [vm_compute; reflexivity|vm_compute; discriminate]. Qed.

(** * Further properties of the node adapter *)

(** ** More on the queue *)

(** X13. The settled-at handed to [onIncomingPayment] is the completion
    time in milliseconds rounded to the nearest second, halves up. *)
Theorem settledAt_nearest_second (p : IncomingPayment) :
  completedAt p - 500 < 1000 * ev_settledAt (payment_event p) <= completedAt p + 500.
Proof.
  unfold payment_event, round_seconds. cbn.
  pose proof (Z.div_mod (completedAt p + 500) 1000 ltac:(lia)).
  pose proof (Z.mod_pos_bound (completedAt p + 500) 1000 ltac:(lia)). lia.
Qed.

Lemma resume_fee_failed p q tr :
  resume false (mkSt (p :: q) (Some (AwaitLiquidityFee, p)) tr)
  = match q with
    | [] => mkSt [] None (tr ++ [End (call_fee p) false])
    | _ :: _ =>
        processIncomingPayments (mkSt q None (tr ++ [End (call_fee p) false]))
    end.
Proof. unfold resume, log. cbn. apply after_entry_eq. Qed.

Lemma run_settled_idle outcomes tr :
  run_inputs (Settled <$> outcomes) (mkSt [] None tr) = mkSt [] None tr.
Proof. induction outcomes as [|ok oks IH]; [done|]. cbn. apply IH. Qed.

(** Two settlements per entry empty the queue, whatever their outcomes. *)
Lemma any_outcomes_drain q :
  ∀ tr outcomes, (2 * length q ≤ length outcomes)%nat →
    ∃ tr',
      run_inputs (Settled <$> outcomes)
        (match q with
         | [] => mkSt [] None tr
         | _ :: _ => processIncomingPayments (mkSt q None tr)
         end)
      = mkSt [] None tr'.
Proof.
  induction q as [|p q IH]; intros tr outcomes Hn.
  - exists tr. apply run_settled_idle.
  - cbn [length] in Hn. rewrite process_cons.
    destruct outcomes as [|ok1 outcomes]; [cbn in Hn; lia|]. cbn [length] in Hn.
    destruct (Z.eqb_spec (fees p) 0) as [Hf|Hf].
    + cbn [fmap list_fmap run_inputs foldl step]. rewrite resume_payment.
      apply IH. lia.
    + cbn [fmap list_fmap run_inputs foldl step]. destruct ok1.
      * rewrite resume_fee_ok.
        destruct outcomes as [|ok2 outcomes]; [cbn in Hn; lia|]. cbn [length] in Hn.
        cbn [fmap list_fmap run_inputs foldl step]. rewrite resume_payment.
        apply IH. lia.
      * rewrite resume_fee_failed. apply IH. lia.
Qed.

Lemma run_received ps s :
  run_inputs (Received <$> ps) s
  = foldl (fun s p => scheduleIncomingPayment p s) s ps.
Proof. revert s. induction ps as [|p ps IH]; intros s; [done|]. cbn. apply IH. Qed.

(** X14. A failing callback never stalls the queue: once every awaited
    callback has settled, resolved or rejected, the queue is empty and no
    run is suspended; two settlements per enqueued payment are enough. *)
Theorem queue_drains_despite_failures (ps : list IncomingPayment)
    (outcomes : list bool) :
  (2 * length ps ≤ length outcomes)%nat →
  let s := run_inputs ((Received <$> ps) ++ (Settled <$> outcomes)) init in
  incomingPaymentQueue s = [] ∧ suspended s = None.
Proof.
  intros Hn s. subst s. unfold run_inputs. rewrite foldl_app.
  fold (run_inputs (Received <$> ps) init). rewrite run_received.
  unfold init. rewrite schedule_all_idle.
  destruct (any_outcomes_drain ps [] outcomes Hn) as (tr' & Hrun).
  unfold run_inputs in Hrun. by rewrite Hrun.
Qed.

Lemma queue_drains_despite_failures_witness :
  incomingPaymentQueue
    (run_inputs [Received P3; Received P1; Settled false; Settled false;
                 Settled true; Settled true] init) = [].
Proof.
  apply (queue_drains_despite_failures [P3; P1] [false; false; true; true]).
  cbn. lia.
Defined.

(** X15. The liquidity-fee callback is called only for payments with a
    non-zero fee, and when it rejects the payment is dropped:
    [onIncomingPayment] is not called for it and the entry leaves the
    queue. *)
Theorem fee_failure_drops_payment (p : IncomingPayment) (tr : list Obs) :
  (fees p ≠ 0 →
   resume false (scheduleIncomingPayment p (mkSt [] None tr))
   = mkSt [] None (tr ++ [Begin (call_fee p); End (call_fee p) false]))
  ∧ (fees p = 0 →
     scheduleIncomingPayment p (mkSt [] None tr)
     = mkSt [p] (Some (AwaitIncomingPayment, p)) (tr ++ [Begin (call_payment p)])).
Proof.
  split; intros Hf; rewrite schedule_empty by done;
    change (push p (mkSt [] None tr)) with (mkSt [p] None tr);
    rewrite process_cons; destruct (Z.eqb_spec (fees p) 0) as [E|E]; try done.
  rewrite resume_fee_failed. by rewrite <- app_assoc.
Qed.

Lemma fee_failure_drops_payment_witness :
  payment_calls (trace (resume false (scheduleIncomingPayment P3 init))) = []
  ∧ incomingPaymentQueue (resume false (scheduleIncomingPayment P3 init)) = []
  ∧ fee_calls (trace (scheduleIncomingPayment P1 init)) = [].
Proof.
  destruct (fee_failure_drops_payment P3 []) as [Hdrop _].
  destruct (fee_failure_drops_payment P1 []) as [_ Hzero].
  unfold init. rewrite Hdrop by discriminate. rewrite Hzero by reflexivity.
  repeat split.
Defined.

(** X16. Backfill into a busy queue only appends: the payments go behind
    the entries already queued, in reversed node order, and no second run
    is started. *)
Theorem syncPaymentsSince_busy_appends (node : Z → list IncomingPayment)
    (fromSec : Z) (s : St) :
  incomingPaymentQueue s ≠ [] →
  syncPaymentsSince node fromSec s
  = mkSt (incomingPaymentQueue s ++ reverse (node (fromSec * 1000)))
         (suspended s) (trace s).
Proof. intros Hq. unfold syncPaymentsSince. by apply schedule_all_nonempty. Qed.

Lemma syncPaymentsSince_busy_appends_witness :
  incomingPaymentQueue
    (syncPaymentsSince node_sorted 0 (scheduleIncomingPayment P3 init))
  = [P3; P1; P2; P3].
Proof.
  rewrite syncPaymentsSince_busy_appends; [reflexivity|].
  vm_compute. discriminate.
Defined.

Lemma episode_calls p e :
  episode p e → payment_calls e `sublist_of` [payment_event p].
Proof.
  intros [Hf|ok Hf|ok Hf]; cbn.
  - apply sublist_nil_l.
  - done.
  - done.
Qed.

Lemma in_progress_calls p sp cur :
  in_progress p sp cur → payment_calls cur `sublist_of` [payment_event p].
Proof.
  intros [Hf|Hf|Hf]; cbn.
  - apply sublist_nil_l.
  - done.
  - done.
Qed.

Lemma sequential_calls done t :
  sequential done t → payment_calls t `sublist_of` payment_event <$> done.
Proof.
  induction 1 as [|ps t p e _ IH He]; [done|].
  rewrite payment_calls_app, fmap_app. apply sublist_app; [done|].
  by apply episode_calls.
Qed.

(** X17. [onIncomingPayment] is called at most once per enqueued payment
    and never out of order: at any time the calls made so far are a
    subsequence of the payments in the order they were enqueued. *)
Theorem payment_calls_in_enqueue_order (inputs : list Input) :
  payment_calls (trace (run_inputs inputs init))
  `sublist_of` payment_event <$> enqueued inputs.
Proof.
  assert (Hinit : drained_in_order [] init).
  { exists [], [], []. repeat split. constructor. }
  destruct (drained_run inputs [] init Hinit) as (done & t & cur & Hall & -> & Hseq & Hfront).
  cbn [app] in Hall. rewrite Hall, payment_calls_app, fmap_app.
  apply sublist_app; [by apply sequential_calls|].
  unfold front_in_progress in Hfront.
  destruct (incomingPaymentQueue _) as [|p q].
  - destruct Hfront as [_ ->]. done.
  - rewrite fmap_cons.
    etrans; [by apply (in_progress_calls p (suspended (run_inputs inputs init)))|].
    apply sublist_skip, sublist_nil_l.
Qed.

(** ** Invoice creation *)

Lemma ceil_sat_bounds msat : msat <= 1000 * ceil_sat msat < msat + 1000.
Proof.
  unfold ceil_sat.
  pose proof (Z.div_mod (- msat) 1000 ltac:(lia)).
  pose proof (Z.mod_pos_bound (- msat) 1000 ltac:(lia)). lia.
Qed.

Lemma js_mul_exact a b : Z.abs (a * b) < 2 ^ 53 → js_mul a b = a * b.
Proof.
  intros H. unfold js_mul, round_double.
  destruct (Z.ltb_spec (Z.abs (a * b)) (2 ^ 53)); [done|lia].
Qed.

(** X18. [makeInvoice] asks the node for the amount rounded up to whole
    satoshis (for amounts below 2^53, never less than requested and less
    than one satoshi more), under the record id as external id and with
    the default expiry of 120 seconds when the request has none; the
    invoice it returns expires that many seconds after its created-at and
    carries the node's amount times 1000 as a JavaScript number, which is
    the exact product when that is below 2^53 and the nearest double
    otherwise; an error of the call is passed on. *)
Theorem makeInvoice_rounds_up (call : MakeInvoiceRequest → MakeInvoiceReply + string)
    (now : Z) (id : string) (req : MakeInvoiceReq) :
  let params := makeInvoice_params id req in
  (Z.abs (mi_amount req) < 2 ^ 53 →
   mi_amount req <= 1000 * rq_amountSat params < mi_amount req + 1000)
  ∧ rq_externalId params = id
  ∧ (mi_expiry req = None ∨ mi_expiry req = Some 0 → rq_expirySeconds params = 120)
  ∧ (∀ e, mi_expiry req = Some e → e ≠ 0 → rq_expirySeconds params = e)
  ∧ (∀ r, call params = inl r →
          ∃ inv,
            makeInvoice call now id req = inl inv
            ∧ Ledger.tx_created_at (Ledger.inv_tx inv) = now
            ∧ Ledger.tx_expires_at (Ledger.inv_tx inv) = now + rq_expirySeconds params
            ∧ Ledger.tx_amount (Ledger.inv_tx inv) = js_mul (rp_amountSat r) 1000
            ∧ (Z.abs (rp_amountSat r * 1000) < 2 ^ 53 →
               Ledger.tx_amount (Ledger.inv_tx inv) = rp_amountSat r * 1000)
            ∧ Ledger.tx_payment_hash (Ledger.inv_tx inv) = rp_paymentHash r
            ∧ (rp_amountSat r = rq_amountSat params →
               Z.abs (mi_amount req) + 1000 < 2 ^ 53 →
               mi_amount req <= Ledger.tx_amount (Ledger.inv_tx inv)
                 < mi_amount req + 1000))
  ∧ (∀ e, call params = inr e → makeInvoice call now id req = inr e).
Proof.
  intros params. subst params. cbn [makeInvoice_params rq_amountSat rq_externalId
    rq_expirySeconds].
  split; [intros _; apply ceil_sat_bounds|]. split; [done|].
  split; [|split; [|split]].
  - unfold makeInvoice_expiry. by intros [-> | ->].
  - unfold makeInvoice_expiry. intros e -> He. cbn.
    by destruct (Z.eqb_spec e 0).
  - intros r Hr. unfold makeInvoice. rewrite Hr. eexists. split; [reflexivity|].
    cbn [Ledger.inv_tx Ledger.tx_created_at Ledger.tx_expires_at Ledger.tx_amount
         Ledger.tx_payment_hash].
    do 3 (split; [done|]). split; [apply js_mul_exact|]. split; [done|].
    intros -> Hsafe. pose proof (ceil_sat_bounds (mi_amount req)).
    rewrite js_mul_exact; lia.
  - intros e He. unfold makeInvoice. by rewrite He.
Qed.

Lemma makeInvoice_rounds_up_witness :
  rq_amountSat (makeInvoice_params "7" (mkMakeInvoiceReq 1500 None None None)) = 2
  ∧ rq_expirySeconds (makeInvoice_params "7" (mkMakeInvoiceReq 1500 None None None))
    = 120
  ∧ (∃ inv,
       makeInvoice (fun _ => inl (mkMakeInvoiceReply 2 "h" "lnbc"))
                   50 "7" (mkMakeInvoiceReq 1500 None None None) = inl inv
       ∧ Ledger.tx_amount (Ledger.inv_tx inv) = 2000)
  ∧ (∃ inv,
       makeInvoice (fun _ => inl (mkMakeInvoiceReply 72057594037929 "h" "lnbc"))
                   50 "7" (mkMakeInvoiceReq 1500 None None None) = inl inv
       ∧ Ledger.tx_amount (Ledger.inv_tx inv) = 72057594037928992).
Proof.
  destruct (makeInvoice_rounds_up (fun _ => inl (mkMakeInvoiceReply 2 "h" "lnbc"))
              50 "7" (mkMakeInvoiceReq 1500 None None None))
    as (Hamount & _ & Hdefault & _ & Hok & _).
  destruct (makeInvoice_rounds_up
              (fun _ => inl (mkMakeInvoiceReply 72057594037929 "h" "lnbc"))
              50 "7" (mkMakeInvoiceReq 1500 None None None))
    as (_ & _ & _ & _ & Hbig & _).
  split; [|split; [apply Hdefault; by left|split]].
  - cbn [mi_amount] in Hamount.
    assert (Z.abs 1500 < 2 ^ 53) as Hs by (vm_compute; reflexivity).
    specialize (Hamount Hs). lia.
  - destruct (Hok _ eq_refl) as (inv & Hrun & _ & _ & _ & Hexact & _).
    exists inv. split; [exact Hrun|]. apply Hexact. vm_compute. reflexivity.
  - destruct (Hbig _ eq_refl) as (inv & Hrun & _ & _ & Hamt & _).
    exists inv. split; [exact Hrun|]. rewrite Hamt. vm_compute. reflexivity.
Defined.

(** * Order and progress of the queue *)

(** ** Progress *)

(** From any state in which the front entry is the one in progress, two
    settlements per queued entry empty the queue, whatever their
    outcomes. *)
Lemma any_outcomes_drain_front s cur outcomes :
  front_in_progress s cur →
  (2 * length (incomingPaymentQueue s) ≤ length outcomes)%nat →
  ∃ tr', run_inputs (Settled <$> outcomes) s = mkSt [] None tr'.
Proof.
  destruct s as [q sp tr]. unfold front_in_progress. cbn [incomingPaymentQueue suspended].
  destruct q as [|p q].
  - intros [-> _] _. exists tr. apply run_settled_idle.
  - intros Hfront Hn. cbn [length] in Hn.
    destruct outcomes as [|ok1 outcomes]; [cbn in Hn; lia|]. cbn [length] in Hn.
    cbn [fmap list_fmap run_inputs foldl step].
    destruct Hfront as [Hf|Hf|Hf].
    + destruct ok1.
      * rewrite resume_fee_ok.
        destruct outcomes as [|ok2 outcomes]; [cbn in Hn; lia|]. cbn [length] in Hn.
        cbn [fmap list_fmap run_inputs foldl step]. rewrite resume_payment.
        apply any_outcomes_drain. lia.
      * rewrite resume_fee_failed. apply any_outcomes_drain. lia.
    + rewrite resume_payment. apply any_outcomes_drain. lia.
    + rewrite resume_payment. apply any_outcomes_drain. lia.
Qed.

Lemma enqueued_app inputs1 inputs2 :
  enqueued (inputs1 ++ inputs2) = (enqueued inputs1 ++ enqueued inputs2)%list.
Proof. apply bind_app. Qed.

Lemma run_inputs_app inputs1 inputs2 s :
  run_inputs (inputs1 ++ inputs2) s = run_inputs inputs2 (run_inputs inputs1 s).
Proof. apply foldl_app. Qed.

Lemma drained_init : drained_in_order [] init.
Proof. exists [], [], []. repeat split. constructor. Qed.

(** Enough settlements after any inputs: everything enqueued has been
    processed to its end, in enqueue order. *)
Lemma all_processed inputs outcomes :
  (2 * length (enqueued inputs) ≤ length outcomes)%nat →
  ∃ tr,
    run_inputs (inputs ++ (Settled <$> outcomes)) init = mkSt [] None tr
    ∧ sequential (enqueued inputs) tr.
Proof.
  intros Hn.
  destruct (drained_run inputs [] init drained_init)
    as (done & t & cur & Hall & _ & _ & Hfront).
  cbn [app] in Hall.
  destruct (any_outcomes_drain_front (run_inputs inputs init) cur outcomes Hfront)
    as (tr & Hrun).
  { rewrite Hall, length_app in Hn. lia. }
  exists tr. rewrite run_inputs_app, Hrun. split; [done|].
  destruct (drained_run (inputs ++ (Settled <$> outcomes)) [] init drained_init)
    as (done' & t' & cur' & Hall' & Htr' & Hseq' & Hfront').
  rewrite run_inputs_app, Hrun in Hall', Htr', Hfront'.
  unfold front_in_progress in Hfront'. cbn in Hall', Htr', Hfront'.
  destruct Hfront' as [_ ->].
  rewrite enqueued_app, enqueued_settled, !app_nil_r in Hall'.
  rewrite app_nil_r in Htr'. by subst.
Qed.

(** C5. The queue is served one entry at a time and front to back.
    Safety: whatever the event loop delivers, in whatever order, the
    trace is the complete callback episodes of the processed entries, in
    enqueue order, followed by the calls of the one entry in progress,
    which is the front of the queue.  Progress: once the awaited
    callbacks have settled, two settlements per enqueued payment being
    enough, every enqueued payment has been processed to its end, the
    queue is empty and the trace is the episodes of all of them in enqueue
    order; so for N1, N2, N3 the callbacks of N1 complete before those of
    N2 begin, and those of N2 before those of N3.  When the payment
    callback of the front entry settles, the entry is shifted and the run
    on the next entry begins at once.  An enqueue into a non-empty queue
    only appends; an enqueue into an empty queue starts the run on the new
    entry. *)
Theorem queue_one_at_a_time :
  (∀ inputs, drained_in_order (enqueued inputs) (run_inputs inputs init))
  ∧ (∀ inputs outcomes,
       (2 * length (enqueued inputs) ≤ length outcomes)%nat →
       ∃ tr,
         run_inputs (inputs ++ (Settled <$> outcomes)) init = mkSt [] None tr
         ∧ sequential (enqueued inputs) tr)
  ∧ (∀ N1 N2 N3 outcomes,
       (6 ≤ length outcomes)%nat →
       ∃ tr,
         run_inputs (Received N1 :: Received N2 :: Received N3
                       :: (Settled <$> outcomes)) init
         = mkSt [] None tr
         ∧ sequential [N1; N2; N3] tr)
  ∧ (∀ p p' q tr ok,
       ∃ a c,
         resume ok (mkSt (p :: p' :: q) (Some (AwaitIncomingPayment, p)) tr)
         = mkSt (p' :: q) (Some (a, p'))
                (tr ++ [End (call_payment p) ok; Begin c]))
  ∧ (∀ p s, incomingPaymentQueue s ≠ [] →
            scheduleIncomingPayment p s = push p s)
  ∧ (∀ p s, incomingPaymentQueue s = [] →
            ∃ a c, scheduleIncomingPayment p s
                   = mkSt [p] (Some (a, p)) (trace s ++ [Begin c])).
Proof.
  split; [|split; [|split; [|split; [|split]]]].
  - intros inputs. by apply (drained_run inputs [] init drained_init).
  - apply all_processed.
  - intros N1 N2 N3 outcomes Hn.
    apply (all_processed [Received N1; Received N2; Received N3] outcomes).
    cbn. lia.
  - intros p p' q tr ok. rewrite resume_payment, process_cons.
    destruct (fees p' =? 0); eexists _, _; by rewrite <- app_assoc.
  - apply schedule_nonempty.
  - intros p s Hq. rewrite schedule_empty by done.
    destruct s as [q sp tr]. cbn in Hq. subst q.
    unfold push, processIncomingPayments. cbn.
    destruct (fees p =? 0); eauto.
Qed.

Lemma queue_one_at_a_time_witness :
  (∃ tr,
     run_inputs [Received P3; Received P1; Received P2;
                 Settled true; Settled false; Settled true; Settled true;
                 Settled true; Settled true] init
     = mkSt [] None tr
     ∧ sequential [P3; P1; P2] tr)
  ∧ incomingPaymentQueue (scheduleIncomingPayment P1 init) ≠ []
  ∧ scheduleIncomingPayment P2 (scheduleIncomingPayment P1 init)
    = push P2 (scheduleIncomingPayment P1 init)
  ∧ ∃ a c, scheduleIncomingPayment P3 init = mkSt [P3] (Some (a, P3)) [Begin c].
Proof.
  assert (Hq : incomingPaymentQueue (scheduleIncomingPayment P1 init) ≠ [])
    by (vm_compute; discriminate).
  split; [|split; [exact Hq|split]].
  - apply (proj1 (proj2 (proj2 queue_one_at_a_time)) P3 P1 P2
             [true; false; true; true; true; true]).
    cbn. lia.
  - exact (proj1 (proj2 (proj2 (proj2 (proj2 queue_one_at_a_time)))) P2 _ Hq).
  - exact (proj2 (proj2 (proj2 (proj2 (proj2 queue_one_at_a_time)))) P3 init eq_refl).
Defined.

(** * Order of the backfill *)

(** ** Calls made after a given moment *)

(** A run started on [q]: its first call, if it is the payment call, and
    the entries still to be called make up [q]. *)
Lemma started_calls q tr :
  let s := match q with
           | [] => mkSt [] None tr
           | _ :: _ => processIncomingPayments (mkSt q None tr)
           end in
  ∃ cur new,
    front_in_progress s cur
    ∧ incomingPaymentQueue s = q
    ∧ payment_calls (trace s) = (payment_calls tr ++ new)%list
    ∧ (new ++ (payment_event <$> not_yet_called s))%list = payment_event <$> q.
Proof.
  destruct q as [|p q]; cbn zeta.
  - exists [], []. unfold front_in_progress. cbn. by rewrite app_nil_r.
  - rewrite process_cons. destruct (Z.eqb_spec (fees p) 0) as [Hf|Hf].
    + exists [Begin (call_payment p)], [payment_event p].
      unfold front_in_progress, not_yet_called. cbn.
      rewrite payment_calls_app. repeat split. by constructor.
    + exists [Begin (call_fee p)], [].
      unfold front_in_progress, not_yet_called. cbn.
      rewrite payment_calls_app. cbn. rewrite app_nil_r. repeat split.
      by constructor.
Qed.

(** One settlement: the payment calls it adds, followed by the entries
    still to be called, are among the entries that were to be called. *)
Lemma resume_calls s cur ok :
  front_in_progress s cur →
  ∃ cur' new,
    front_in_progress (resume ok s) cur'
    ∧ payment_calls (trace (resume ok s)) = (payment_calls (trace s) ++ new)%list
    ∧ (new ++ (payment_event <$> not_yet_called (resume ok s)))%list
      `sublist_of` payment_event <$> not_yet_called s.
Proof.
  destruct s as [q sp tr]. unfold front_in_progress at 1.
  cbn [incomingPaymentQueue suspended]. destruct q as [|p q].
  - intros [-> ->]. exists [], []. unfold front_in_progress. cbn.
    by rewrite app_nil_r.
  - intros [Hf|Hf|Hf].
    + destruct ok.
      * rewrite resume_fee_ok.
        exists [Begin (call_fee p); End (call_fee p) true; Begin (call_payment p)],
               [payment_event p].
        unfold front_in_progress, not_yet_called. cbn.
        rewrite !payment_calls_app. cbn. rewrite app_nil_r.
        split_and!; [by constructor|done|done].
      * rewrite resume_fee_failed.
        destruct (started_calls q (tr ++ [End (call_fee p) false]))
          as (cur' & new & Hfront & _ & Hcalls & Hrest).
        exists cur', new. split; [done|]. split.
        -- rewrite Hcalls, payment_calls_app. cbn. by rewrite app_nil_r.
        -- rewrite Hrest. unfold not_yet_called. cbn. by apply sublist_cons.
    + rewrite resume_payment.
      destruct (started_calls q (tr ++ [End (call_payment p) ok]))
        as (cur' & new & Hfront & _ & Hcalls & Hrest).
      exists cur', new. split; [done|]. split.
      * rewrite Hcalls, payment_calls_app. cbn. by rewrite app_nil_r.
      * rewrite Hrest. unfold not_yet_called. by cbn.
    + rewrite resume_payment.
      destruct (started_calls q (tr ++ [End (call_payment p) ok]))
        as (cur' & new & Hfront & _ & Hcalls & Hrest).
      exists cur', new. split; [done|]. split.
      * rewrite Hcalls, payment_calls_app. cbn. by rewrite app_nil_r.
      * rewrite Hrest. unfold not_yet_called. by cbn.
Qed.

Lemma run_settled_calls outcomes :
  ∀ s cur,
    front_in_progress s cur →
    ∃ new,
      payment_calls (trace (run_inputs (Settled <$> outcomes) s))
      = (payment_calls (trace s) ++ new)%list
      ∧ (new ++ (payment_event <$>
                   not_yet_called (run_inputs (Settled <$> outcomes) s)))%list
        `sublist_of` payment_event <$> not_yet_called s.
Proof.
  induction outcomes as [|ok outcomes IH]; intros s cur Hfront.
  - exists []. cbn. by rewrite app_nil_r.
  - cbn [fmap list_fmap run_inputs foldl step].
    destruct (resume_calls s cur ok Hfront) as (cur' & new1 & Hfront' & Hc1 & Hs1).
    destruct (IH (resume ok s) cur' Hfront') as (new2 & Hc2 & Hs2).
    exists (new1 ++ new2)%list. split.
    + unfold run_inputs in Hc2. rewrite Hc2, Hc1. by rewrite app_assoc.
    + etrans; [|exact Hs1]. rewrite <- app_assoc.
      apply sublist_app; [done|]. exact Hs2.
Qed.

(** The enqueue loop of the backfill: the payments go behind what is
    queued, in reversed node order. *)
Lemma sync_calls node fromSec s cur :
  front_in_progress s cur →
  ∃ cur1 new,
    front_in_progress (syncPaymentsSince node fromSec s) cur1
    ∧ incomingPaymentQueue (syncPaymentsSince node fromSec s)
      = (incomingPaymentQueue s ++ reverse (node (fromSec * 1000)))%list
    ∧ payment_calls (trace (syncPaymentsSince node fromSec s))
      = (payment_calls (trace s) ++ new)%list
    ∧ (new ++ (payment_event <$>
                 not_yet_called (syncPaymentsSince node fromSec s)))%list
      = payment_event <$> (not_yet_called s ++ reverse (node (fromSec * 1000)))%list.
Proof.
  destruct s as [q sp tr]. unfold front_in_progress at 1.
  cbn [incomingPaymentQueue suspended]. unfold syncPaymentsSince.
  destruct q as [|p q].
  - intros [-> ->]. rewrite schedule_all_idle.
    destruct (started_calls (reverse (node (fromSec * 1000))) tr)
      as (cur1 & new & Hfront & Hq & Hcalls & Hrest).
    exists cur1, new. by repeat split.
  - intros Hfront. rewrite schedule_all_nonempty by done.
    cbn [incomingPaymentQueue suspended trace].
    exists cur, []. unfold front_in_progress, not_yet_called. cbn.
    rewrite app_nil_r. repeat split; [done|].
    destruct Hfront; by cbn.
Qed.

(** With every callback resolving, two settlements per queued entry
    empty the queue and call [onIncomingPayment] for each entry that was
    still to be called, in queue order. *)
Lemma settle_all_front s cur n :
  front_in_progress s cur →
  (2 * length (incomingPaymentQueue s) ≤ n)%nat →
  ∃ tr',
    settle_all n s = mkSt [] None tr'
    ∧ payment_calls tr'
      = (payment_calls (trace s) ++ (payment_event <$> not_yet_called s))%list.
Proof.
  destruct s as [q sp tr]. unfold front_in_progress.
  cbn [incomingPaymentQueue suspended trace]. destruct q as [|p q].
  - intros [-> _] _. exists tr. rewrite settle_all_idle.
    unfold not_yet_called. cbn. by rewrite app_nil_r.
  - intros Hfront Hn. cbn [length] in Hn. destruct Hfront as [Hf|Hf|Hf].
    + destruct n as [|[|n]]; [lia|lia|]. cbn [settle_all].
      rewrite resume_fee_ok, resume_payment.
      destruct (settle_all_drains q
                  (((tr ++ [End (call_fee p) true]) ++ [Begin (call_payment p)])
                   ++ [End (call_payment p) true])%list n ltac:(lia))
        as (tr' & Hrun & Hcalls).
      exists tr'. split; [exact Hrun|].
      rewrite Hcalls, !payment_calls_app. unfold not_yet_called. cbn.
      by rewrite !app_nil_r, <- app_assoc.
    + destruct n as [|n]; [lia|]. cbn [settle_all]. rewrite resume_payment.
      destruct (settle_all_drains q (tr ++ [End (call_payment p) true])%list n
                  ltac:(lia)) as (tr' & Hrun & Hcalls).
      exists tr'. split; [exact Hrun|].
      rewrite Hcalls, !payment_calls_app. unfold not_yet_called. cbn.
      by rewrite !app_nil_r.
    + destruct n as [|n]; [lia|]. cbn [settle_all]. rewrite resume_payment.
      destruct (settle_all_drains q (tr ++ [End (call_payment p) true])%list n
                  ltac:(lia)) as (tr' & Hrun & Hcalls).
      exists tr'. split; [exact Hrun|].
      rewrite Hcalls, !payment_calls_app. unfold not_yet_called. cbn.
      by rewrite !app_nil_r.
Qed.

(** C6, amended. [syncPaymentsSince] enqueues the node's list in
    reversed order, without sorting it, behind the entries still queued.
    Whatever the callbacks do, the [onIncomingPayment] calls made from
    then on are a subsequence of the entries that were still to be
    called followed by the reversed list; when no callback is rejected
    they are exactly these, one call per payment, and the queue ends
    empty.  The reversed order is chronological when the node's list is
    newest first. *)
Theorem syncPaymentsSince_reverse_order (node : Z → list IncomingPayment)
    (fromSec : Z) (inputs : list Input) :
  let payments := node (fromSec * 1000) in
  let s0 := run_inputs inputs init in
  let s1 := syncPaymentsSince node fromSec s0 in
  incomingPaymentQueue s1 = (incomingPaymentQueue s0 ++ reverse payments)%list
  ∧ (∀ outcomes,
       ∃ new,
         payment_calls (trace (run_inputs (Settled <$> outcomes) s1))
         = (payment_calls (trace s0) ++ new)%list
         ∧ new `sublist_of`
             payment_event <$> (not_yet_called s0 ++ reverse payments)%list)
  ∧ (∀ n,
       (2 * length (incomingPaymentQueue s1) ≤ n)%nat →
       incomingPaymentQueue (settle_all n s1) = []
       ∧ suspended (settle_all n s1) = None
       ∧ payment_calls (trace (settle_all n s1))
         = (payment_calls (trace s0)
            ++ (payment_event <$> (not_yet_called s0 ++ reverse payments)%list))%list)
  ∧ (StronglySorted newest_first payments →
     StronglySorted chronological (payment_event <$> reverse payments)).
Proof.
  intros payments s0 s1.
  destruct (drained_run inputs [] init drained_init)
    as (done & t & cur & _ & _ & _ & Hfront).
  fold s0 in Hfront.
  destruct (sync_calls node fromSec s0 cur Hfront)
    as (cur1 & new1 & Hfront1 & Hq1 & Hc1 & Hrest1).
  fold s1 in Hfront1, Hq1, Hc1, Hrest1. fold payments in Hq1, Hrest1.
  split; [exact Hq1|]. split; [|split].
  - intros outcomes.
    destruct (run_settled_calls outcomes s1 cur1 Hfront1) as (new2 & Hc2 & Hs2).
    exists (new1 ++ new2)%list. split.
    + rewrite Hc2, Hc1. by rewrite app_assoc.
    + rewrite <- Hrest1. apply sublist_app; [done|].
      etrans; [|exact Hs2]. by apply sublist_inserts_r.
  - intros n Hn.
    destruct (settle_all_front s1 cur1 n Hfront1 Hn) as (tr' & -> & Hcalls).
    cbn [incomingPaymentQueue suspended trace]. split; [done|]. split; [done|].
    by rewrite Hcalls, Hc1, <- Hrest1, app_assoc.
  - apply reverse_chronological.
Qed.

Lemma syncPaymentsSince_reverse_order_witness :
  StronglySorted newest_first (node_sorted 0)
  ∧ StronglySorted chronological (payment_event <$> reverse (node_sorted 0))
  ∧ payment_calls (trace (settle_all 6 (syncPaymentsSince node_sorted 0 init)))
    = payment_event <$> [P1; P2; P3]
  ∧ payment_calls
      (trace (settle_all 8 (syncPaymentsSince node_unsorted 0
                              (run_inputs [Received P1] init))))
    = payment_event <$> [P1; P2; P1; P3].
Proof.
  assert (Hs : StronglySorted newest_first (node_sorted 0)).
  { repeat constructor; unfold newest_first; cbn; lia. }
  split; [exact Hs|]. split; [|split].
  - exact (proj2 (proj2 (proj2 (syncPaymentsSince_reverse_order node_sorted 0 []))) Hs).
  - apply (proj1 (proj2 (proj2 (syncPaymentsSince_reverse_order node_sorted 0 []))) 6%nat).
    vm_compute. lia.
  - destruct (proj1 (proj2 (proj2 (syncPaymentsSince_reverse_order node_unsorted 0
                                      [Received P1]))) 8%nat)
      as (_ & _ & Hcalls); [vm_compute; lia|].
    exact Hcalls.
Defined.

End QueueFacts.
